(** * The sieve of Eratosthenes of package [sieve] (sieve.go)

    A shallow embedding of the bit-packed prime sieve and of its query
    methods, followed by the properties of the package that we verify.

    Conventions of the embedding.
    - Go's [int] is modelled by [Z]; arithmetic on it is exact, so the
      development covers the runs in which no [int] operation overflows.
      [/] and [%] on [int] truncate towards zero ([Z.quot], [Z.rem]) and
      [>>] on [int] is the arithmetic shift ([Z.shiftr]).
    - [word] is [uint8]: a conversion to [word] or [byte] keeps the low
      eight bits, and this truncation is written out.
    - A method that indexes the table can panic; every method therefore
      returns in the [result] monad.  Loops are fixpoints on a fuel
      argument that the calling method computes from its input; running
      out of fuel is a distinct failure, and the theorems show that it
      never happens.
    - [Count] writes the [count] field, so it returns the sieve as well.
    - [NewCount] and [NewFactor] (floating point) are outside the
      embedding.  [String] and [FactorString] format numbers with
      [fmt.Sprintf("%d", _)], which is stdpp's [pretty] on [Z].  The helper
      [sum] of the test file is embedded with its [uint64] arithmetic
      written out. *)

From Stdlib Require Import ZArith Znumtheory Lia List Bool.
From stdpp Require Import base tactics option list sorting pmap strings pretty.

Local Open Scope Z_scope.

(** ** The result monad *)

Inductive failure : Set :=
| IndexOutOfRange   (* runtime panic: index out of range *)
| NegativeLen       (* runtime panic: makeslice: len out of range *)
| OutOfFuel.        (* the fuel of the embedding ran out *)

Inductive result (A : Type) : Type :=
| Ok (a : A)
| Panic (e : failure).

Arguments Ok {A} a.
Arguments Panic {A} e.

#[global] Instance result_ret : MRet result := fun A a => Ok a.
#[global] Instance result_bind : MBind result := fun A B f m =>
  match m with
  | Ok a => f a
  | Panic e => Panic e
  end.
#[global] Instance result_fmap : FMap result := fun A B f m =>
  match m with
  | Ok a => Ok (f a)
  | Panic e => Panic e
  end.

(** ** Words and the table *)

Definition wordBitsLog2 : Z := 3.
Definition wordBits : Z := Z.shiftl 1 wordBitsLog2.
Definition wordMask : Z := wordBits - 1.

(** Conversion to [word] (and to [byte]): the low [wordBits] bits. *)
Definition to_word (z : Z) : Z := Z.land z (Z.ones wordBits).

(** Conversion [uint(index)] of an [int]: two's complement on 64 bits. *)
Definition to_uint (z : Z) : Z := z mod 2 ^ 64.

Record Sieve : Type := mkSieve {
  size  : Z;        (* the largest number testable for primality *)
  count : Z;        (* the number of primes resident in the sieve *)
  table : list Z    (* the sieve, one bit per odd number >= 3 *)
}.

(** [table[k]]: panics unless [0 <= k < len(table)]. *)
Definition index (t : list Z) (k : Z) : result Z :=
  if k <? 0 then Panic IndexOutOfRange
  else match t !! Z.to_nat k with
       | Some w => Ok w
       | None => Panic IndexOutOfRange
       end.

(** [make([]word, n)]: panics when [n] is negative. *)
Definition make (n : Z) : result (list Z) :=
  if n <? 0 then Panic NegativeLen else Ok (replicate (Z.to_nat n) 0).

(** [bit] gets the value of bit[index] by inspecting bits in the packed
    table. *)
Definition bit (sieve : Sieve) (i : Z) : result Z :=
  w ← index (table sieve) (Z.shiftr i (1 + wordBitsLog2));
  Ok (Z.land (to_word (Z.shiftr w (to_word (Z.land (Z.shiftr i 1) wordMask)))) 1).

(** [setBit] sets bit[index] to one (marks it as non-prime). *)
Definition setBit (sieve : Sieve) (i : Z) : result Sieve :=
  let k := Z.shiftr i (1 + wordBitsLog2) in
  w ← index (table sieve) k;
  Ok (mkSieve (size sieve) (count sieve)
        (<[Z.to_nat k :=
             Z.lor w (to_word (Z.shiftl 1 (Z.land (Z.shiftr (to_uint i) 1) wordMask)))]>
           (table sieve))).

(** Fuel for a loop whose counter grows (or whose argument shrinks) by at
    least one per round and is bounded by [n]; not part of the source. *)
Definition fuel_for (n : Z) : nat := (Z.to_nat n + 1)%nat.

(** ** New *)

(** [for j := 3 * i; j <= sieve.size; j += i + i { sieve.setBit(j) }] *)
Fixpoint New_strike (fuel : nat) (sieve : Sieve) (i j : Z) : result Sieve :=
  match fuel with
  | O => Panic OutOfFuel
  | S fuel' =>
      if j <=? size sieve then
        sieve' ← setBit sieve j;
        New_strike fuel' sieve' i (j + (i + i))
      else Ok sieve
  end.

(** [for i := 3; i*i <= sieve.size; i += 2 { if sieve.bit(i) == 0 {...} }] *)
Fixpoint New_loop (fuel : nat) (sieve : Sieve) (i : Z) : result Sieve :=
  match fuel with
  | O => Panic OutOfFuel
  | S fuel' =>
      if i * i <=? size sieve then
        b ← bit sieve i;
        sieve' ← (if b =? 0
                  then New_strike (fuel_for (size sieve)) sieve i (3 * i)
                  else Ok sieve);
        New_loop fuel' sieve' (i + 2)
      else Ok sieve
  end.

Definition New (size : Z) : result Sieve :=
  t ← make (1 + Z.quot (size + wordBits - 1) wordBits);
  New_loop (fuel_for size) (mkSieve size 0 t) 3.

(** ** Size and Count *)

Definition Size (sieve : Sieve) : Z := size sieve.

Definition set_count (sieve : Sieve) (c : Z) : Sieve :=
  mkSieve (size sieve) c (table sieve).

(** [for i := 3; i <= sieve.size; i += 2 { if sieve.bit(i) == 0 { sieve.count++ } }] *)
Fixpoint Count_loop (fuel : nat) (sieve : Sieve) (i : Z) : result Sieve :=
  match fuel with
  | O => Panic OutOfFuel
  | S fuel' =>
      if i <=? size sieve then
        b ← bit sieve i;
        Count_loop fuel'
          (if b =? 0 then set_count sieve (count sieve + 1) else sieve) (i + 2)
      else Ok sieve
  end.

(** [Count] returns the count together with the sieve, whose [count]
    field it may have written. *)
Definition Count (sieve : Sieve) : result (Z * Sieve) :=
  if count sieve =? 0 then
    let sieve1 := if 2 <=? size sieve then set_count sieve 1 else sieve in
    sieve2 ← Count_loop (fuel_for (size sieve)) sieve1 3;
    Ok (count sieve2, sieve2)
  else Ok (count sieve, sieve).

(** ** Prime *)

(** [root := 1; for (root+1)*(root+1) <= n { root++ }] *)
Fixpoint Prime_root (fuel : nat) (n root : Z) : result Z :=
  match fuel with
  | O => Panic OutOfFuel
  | S fuel' =>
      if (root + 1) * (root + 1) <=? n
      then Prime_root fuel' n (root + 1)
      else Ok root
  end.

(** [for d := 3; d <= root; d += 2 { if sieve.bit(d) == 0 && n%d == 0
    { return false } }; return true] *)
Fixpoint Prime_trial (fuel : nat) (sieve : Sieve) (n root d : Z) : result bool :=
  match fuel with
  | O => Panic OutOfFuel
  | S fuel' =>
      if d <=? root then
        b ← bit sieve d;
        if (b =? 0) && (Z.rem n d =? 0) then Ok false
        else Prime_trial fuel' sieve n root (d + 2)
      else Ok true
  end.

Definition Prime (sieve : Sieve) (n : Z) : result bool :=
  if n <? 2 then Ok false
  else if n =? 2 then Ok true
  else if Z.land n 1 =? 0 then Ok false
  else if n <=? size sieve then
    (* n == 2 || (n > 2 && n <= sieve.size && n&1 == 1 && sieve.bit(n) == 0) *)
    if n =? 2 then Ok true
    else if (2 <? n) && (n <=? size sieve) && (Z.land n 1 =? 1)
         then b ← bit sieve n; Ok (b =? 0)
         else Ok false
  else if n <=? size sieve * size sieve then
    root ← Prime_root (fuel_for n) n 1;
    if root * root =? n then Ok false
    else Prime_trial (fuel_for n) sieve n root 3
  else Ok false.

(** ** Factor *)

(** [for n > 1 && n%2 == 0 { result = append(result, 2); n >>= 1 }] *)
Fixpoint Factor_twos (fuel : nat) (n : Z) (res : list Z) : result (Z * list Z) :=
  match fuel with
  | O => Panic OutOfFuel
  | S fuel' =>
      if (1 <? n) && (Z.rem n 2 =? 0)
      then Factor_twos fuel' (Z.shiftr n 1) (res ++ [2])
      else Ok (n, res)
  end.

(** [for n > 1 && n%d == 0 { result = append(result, d); n /= d }] *)
Fixpoint Factor_strip (fuel : nat) (d n : Z) (res : list Z) : result (Z * list Z) :=
  match fuel with
  | O => Panic OutOfFuel
  | S fuel' =>
      if (1 <? n) && (Z.rem n d =? 0)
      then Factor_strip fuel' d (Z.quot n d) (res ++ [d])
      else Ok (n, res)
  end.

(** [for d := 3; d < sieve.size && d*d <= n; d += 2 { if sieve.Prime(d) {...} }] *)
Fixpoint Factor_loop (fuel : nat) (sieve : Sieve) (d n : Z) (res : list Z)
  : result (Z * list Z) :=
  match fuel with
  | O => Panic OutOfFuel
  | S fuel' =>
      if (d <? size sieve) && (d * d <=? n) then
        p ← Prime sieve d;
        '(n', res') ← (if p : bool then Factor_strip (fuel_for n) d n res
                       else Ok (n, res));
        Factor_loop fuel' sieve (d + 2) n' res'
      else Ok (n, res)
  end.

Definition Factor (sieve : Sieve) (n : Z) : result (list Z) :=
  if size sieve * size sieve <? n then Ok []
  else if n <=? 3 then Ok [n]
  else
    '(n1, res1) ← Factor_twos (fuel_for n) n [];
    '(n2, res2) ← Factor_loop (fuel_for (size sieve)) sieve 3 n1 res1;
    Ok (if 1 <? n2 then res2 ++ [n2] else res2).

(** ** FactorUnique *)

Record Unique : Type := mkUnique {
  Factor_ : Z;      (* field Factor *)
  Count_  : Z       (* field Count *)
}.

(** [for n > 1 && n%2 == 0 { n >>= 1; count++ }], the counting loop of
    [FactorUnique] and of [DivisorCount]. *)
Fixpoint count_twos (fuel : nat) (n cnt : Z) : result (Z * Z) :=
  match fuel with
  | O => Panic OutOfFuel
  | S fuel' =>
      if (1 <? n) && (Z.rem n 2 =? 0)
      then count_twos fuel' (Z.shiftr n 1) (cnt + 1)
      else Ok (n, cnt)
  end.

(** [for n > 1 && n%d == 0 { n /= d; count++ }], the counting loop of
    [FactorUnique] and of [DivisorCount]. *)
Fixpoint count_strip (fuel : nat) (d n cnt : Z) : result (Z * Z) :=
  match fuel with
  | O => Panic OutOfFuel
  | S fuel' =>
      if (1 <? n) && (Z.rem n d =? 0)
      then count_strip fuel' d (Z.quot n d) (cnt + 1)
      else Ok (n, cnt)
  end.

(** [for d := 3; d < sieve.size && d*d <= n; d += 2 { if sieve.Prime(d)
    { if n > 1 && n%d == 0 {...; result = append(result, Unique{d, count})} } }] *)
Fixpoint FactorUnique_loop (fuel : nat) (sieve : Sieve) (d n : Z) (res : list Unique)
  : result (Z * list Unique) :=
  match fuel with
  | O => Panic OutOfFuel
  | S fuel' =>
      if (d <? size sieve) && (d * d <=? n) then
        p ← Prime sieve d;
        '(n', res') ← (if (p : bool) && ((1 <? n) && (Z.rem n d =? 0))
                       then '(n', cnt) ← count_strip (fuel_for n) d n 0;
                            Ok (n', res ++ [mkUnique d cnt])
                       else Ok (n, res));
        FactorUnique_loop fuel' sieve (d + 2) n' res'
      else Ok (n, res)
  end.

Definition FactorUnique (sieve : Sieve) (n : Z) : result (list Unique) :=
  if size sieve * size sieve <? n then Ok []
  else if n <=? 3 then Ok [mkUnique n 1]
  else
    '(n1, res1) ← (if (1 <? n) && (Z.rem n 2 =? 0)
                   then '(n1, cnt) ← count_twos (fuel_for n) n 0;
                        Ok (n1, [mkUnique 2 cnt])
                   else Ok (n, []));
    '(n2, res2) ← FactorUnique_loop (fuel_for (size sieve)) sieve 3 n1 res1;
    Ok (if 1 <? n2 then res2 ++ [mkUnique n2 1] else res2).

(** ** DivisorCount *)

(** [for d := 3; d < sieve.size && d*d <= n; d += 2 { if sieve.Prime(d)
    { if n > 1 && n%d == 0 {...; m *= count + 1} } }] *)
Fixpoint DivisorCount_loop (fuel : nat) (sieve : Sieve) (d n m : Z) : result (Z * Z) :=
  match fuel with
  | O => Panic OutOfFuel
  | S fuel' =>
      if (d <? size sieve) && (d * d <=? n) then
        p ← Prime sieve d;
        '(n', m') ← (if (p : bool) && ((1 <? n) && (Z.rem n d =? 0))
                     then '(n', cnt) ← count_strip (fuel_for n) d n 0;
                          Ok (n', m * (cnt + 1))
                     else Ok (n, m));
        DivisorCount_loop fuel' sieve (d + 2) n' m'
      else Ok (n, m)
  end.

Definition DivisorCount (sieve : Sieve) (n : Z) : result Z :=
  if size sieve * size sieve <? n then Ok 0
  else if n =? 1 then Ok 1
  else
    '(n1, m1) ← (if (1 <? n) && (Z.rem n 2 =? 0)
                 then '(n1, cnt) ← count_twos (fuel_for n) n 0;
                      Ok (n1, 1 * (cnt + 1))
                 else Ok (n, 1));
    '(n2, m2) ← DivisorCount_loop (fuel_for (size sieve)) sieve 3 n1 m1;
    Ok (if 1 <? n2 then m2 * (1 + 1) else m2).

(** ** SquareFree *)

(** [for i := 0; i < len(f)-1; i++ { if f[i] == f[i+1] { return false } };
    return true] *)
Fixpoint SquareFree_loop (fuel : nat) (f : list Z) (i : Z) : result bool :=
  match fuel with
  | O => Panic OutOfFuel
  | S fuel' =>
      if i <? Z.of_nat (length f) - 1 then
        a ← index f i;
        b ← index f (i + 1);
        if a =? b then Ok false else SquareFree_loop fuel' f (i + 1)
      else Ok true
  end.

Definition SquareFree (sieve : Sieve) (n : Z) : result bool :=
  if size sieve * size sieve <? n then Ok false
  else
    f ← Factor sieve n;
    SquareFree_loop (S (length f)) f 0.

(** ** NthPrime *)

(** [for value, count := 3, 1; value <= sieve.size; value += 2
    { if sieve.Prime(value) { count++; if count == n { return value } } };
    return 0] *)
Fixpoint NthPrime_loop (fuel : nat) (sieve : Sieve) (n value cnt : Z) : result Z :=
  match fuel with
  | O => Panic OutOfFuel
  | S fuel' =>
      if value <=? size sieve then
        p ← Prime sieve value;
        if p : bool then
          if cnt + 1 =? n then Ok value
          else NthPrime_loop fuel' sieve n (value + 2) (cnt + 1)
        else NthPrime_loop fuel' sieve n (value + 2) cnt
      else Ok 0
  end.

Definition NthPrime (sieve : Sieve) (n : Z) : result Z :=
  if n =? 1 then Ok 2
  else NthPrime_loop (fuel_for (size sieve)) sieve n 3 1.

(** ** String and FactorString *)

(** [fmt.Sprintf("%d", i)] of package [fmt]: the decimal numeral of [i],
    with a minus sign before a negative number. *)
Definition Sprintf_d (i : Z) : string := pretty i.

(** [for i := 3; i <= sieve.size; i += 2 { if sieve.bit(i) == 0 {
    if !first { s += " " }; s += fmt.Sprintf("%d", i); first = false } }] *)
Fixpoint String_loop (fuel : nat) (sieve : Sieve) (i : Z) (s : string)
    (first : bool) : result string :=
  match fuel with
  | O => Panic OutOfFuel
  | S fuel' =>
      if i <=? size sieve then
        b ← bit sieve i;
        if b =? 0 then
          String_loop fuel' sieve (i + 2)
            ((if first then s else s +:+ " ") +:+ Sprintf_d i) false
        else String_loop fuel' sieve (i + 2) s first
      else Ok s
  end.

(** Method [String] of the sieve ([String] itself names the constructor of
    strings). *)
Definition Sieve_String (sieve : Sieve) : result string :=
  let '(s, first) :=
    if 2 <=? size sieve then (EmptyString +:+ "2", false) else (EmptyString, true) in
  String_loop (fuel_for (size sieve)) sieve 3 s first.

(** [for _, f := range u { if f.Count == 1 { r = r + fmt.Sprintf("%s%d",
    space, f.Factor) } else { r = r + fmt.Sprintf("%s%d^%d", space,
    f.Factor, f.Count) }; space = " " }] *)
Fixpoint FactorString_loop (u : list Unique) (r space : string) : string :=
  match u with
  | [] => r
  | f :: u' =>
      FactorString_loop u'
        (if Count_ f =? 1
         then r +:+ (space +:+ Sprintf_d (Factor_ f))
         else r +:+ (space +:+ Sprintf_d (Factor_ f) +:+ "^"
                       +:+ Sprintf_d (Count_ f)))
        " "
  end.

Definition FactorString (sieve : Sieve) (n : Z) : result string :=
  u ← FactorUnique sieve n;
  Ok (FactorString_loop u EmptyString EmptyString).

(** ** sum (the helper of the tests) *)

(** [for i := 3; i <= sieve.size && n > 0; i += 2 { if sieve.bit(i) == 0 {
    sum += uint64(i); n-- } }]; [sum] is a [uint64]. *)
Fixpoint sum_loop (fuel : nat) (sieve : Sieve) (i n sum : Z) : result (Z * Z) :=
  match fuel with
  | O => Panic OutOfFuel
  | S fuel' =>
      if (i <=? size sieve) && (0 <? n) then
        b ← bit sieve i;
        if b =? 0
        then sum_loop fuel' sieve (i + 2) (n - 1) (to_uint (sum + to_uint i))
        else sum_loop fuel' sieve (i + 2) n sum
      else Ok (n, sum)
  end.

(** Method [sum] of the sieve ([sum] itself names the sum of two types):
    the sum of the first [n] primes, or 0 if the sieve holds fewer. *)
Definition Sieve_sum (sieve : Sieve) (n : Z) : result Z :=
  let '(n1, sum1) := if 2 <=? n then (n - 1, to_uint (0 + 2)) else (n, 0) in
  '(n2, sum2) ← sum_loop (fuel_for (size sieve)) sieve 3 n1 sum1;
  Ok (if 0 <? n2 then 0 else sum2).

(** Answers of the methods can be compared. *)
#[global] Instance failure_eq_dec : EqDecision failure :=
  ltac:(solve_decision).
#[global] Instance result_eq_dec {A} `{EqDecision A} : EqDecision (result A) :=
  ltac:(solve_decision).

(** * Notions used by the specification *)

(** Primality is [Z.prime]: [1 < p] and no [n] with [1 < n < p] divides [p]. *)
#[global] Instance prime_decision (n : Z) : Decision (Z.prime n) :=
  match prime_dec n with
  | left H => left (proj2 (prime_alt n) H)
  | right H => right (fun H' => H (proj1 (prime_alt n) H'))
  end.

(** The primes of the interval [[lo, hi]], in ascending order. *)
Definition primes_between (lo hi : Z) : list Z :=
  filter Z.prime (seqZ lo (hi + 1 - lo)).

(** The prime-counting function. *)
Definition pi (x : Z) : Z := Z.of_nat (length (primes_between 2 x)).

(** [p] is the [n]-th prime, counting from one. *)
Definition nth_prime (n p : Z) : Prop := Z.prime p ∧ pi p = n.

(** [k] copies of [p] for each pair [{p, k}], concatenated in order. *)
Definition expand (us : list Unique) : list Z :=
  flat_map (fun u => repeat (Factor_ u) (Z.to_nat (Count_ u))) us.







(** A pair of [FactorUnique] as [FactorString] writes it: [p], or [p^k]
    when the count is not 1. *)
Definition render (u : Unique) : string :=
  if Count_ u =? 1 then Sprintf_d (Factor_ u)
  else Sprintf_d (Factor_ u) +:+ "^" +:+ Sprintf_d (Count_ u).

(** The sum of a sequence of numbers. *)
Definition sum_of (l : list Z) : Z := foldr Z.add 0 l.

(** * Notions used by the proofs *)

(** The bit that the table holds for the number [i] (odd [i] and [i - 1]
    share it): bit [(i / 2) mod 8] of word [i / 16]. *)
Definition marked (t : list Z) (i : Z) : bool :=
  Z.testbit (default 0 (t !! Z.to_nat (i / 16))) ((i / 2) mod 8).

(** The table has a word for every number up to [size]. *)
Definition covers (s : Sieve) : Prop :=
  0 <= size s ∧ size s / 16 < Z.of_nat (length (table s)).

(** The invariant that [New] establishes: an odd number of [[3, size]] is
    marked exactly when it is composite. *)
Definition sieved (s : Sieve) : Prop :=
  covers s ∧
  ∀ m, 3 <= m <= size s → Z.odd m = true →
       marked (table s) m = negb (bool_decide (Z.prime m)).

(** The marks when the outer loop of the sieve reaches [i]: only
    composites are marked, and every odd number of [[3, hi]] with a proper
    divisor in [[3, i)] is. *)
Definition struck_upto (mk : Z → bool) (hi i : Z) : Prop :=
  ∀ m, 3 <= m <= hi → Z.odd m = true →
       (mk m = true → ¬ Z.prime m) ∧
       (∀ d, 3 <= d < i → d < m → (d | m) → mk m = true).

(** The same, for the packed table of a sieve. *)
Definition struck (s : Sieve) (i : Z) : Prop :=
  covers s ∧ struck_upto (marked (table s)) (size s) i.

(** What the factoring loops need of a sieve: they consult the table only
    when [3 < size]. *)
Definition ready (s : Sieve) : Prop := size s <= 3 ∨ sieved s.



(** What the loops of [New] keep: every word is within the range of
    [uint8], and the words beyond the index [size / 16] are zero. *)
Definition tidy (s : Sieve) : Prop :=
  Forall (λ w, 0 <= w < 256) (table s) ∧
  ∀ (k : nat) w, size s / 16 < Z.of_nat k → table s !! k = Some w → w = 0.

(** Every mark of the table belongs to an odd composite of [[9, size]]. *)
Definition only_composites (s : Sieve) : Prop :=
  ∀ m, 0 <= m → marked (table s) m = true →
       ∃ c, 9 <= c <= size s ∧ Z.odd c = true ∧ ¬ Z.prime c ∧ m / 2 = c / 2.

(** ** A second sieve, for evaluating [pi]

    The same algorithm over a trie of the marked numbers instead of the
    packed table; it serves only to compute values of [pi]. *)

Definition member (X : Pmap unit) (i : Z) : bool :=
  match X !! Z.to_pos i with
  | Some _ => true
  | None => false
  end.

Fixpoint fast_strike (fuel : nat) (X : Pmap unit) (hi i j : Z) : Pmap unit :=
  match fuel with
  | O => X
  | S fuel' =>
      if j <=? hi
      then fast_strike fuel' (<[Z.to_pos j := ()]> X) hi i (j + (i + i))
      else X
  end.

Fixpoint fast_loop (fuel inner : nat) (X : Pmap unit) (hi i : Z) : Pmap unit :=
  match fuel with
  | O => X
  | S fuel' =>
      if i * i <=? hi then
        fast_loop fuel' inner
          (if member X i then X else fast_strike inner X hi i (3 * i)) hi (i + 2)
      else X
  end.

Fixpoint fast_count (fuel : nat) (X : Pmap unit) (hi i acc : Z) : Z :=
  match fuel with
  | O => acc
  | S fuel' =>
      if i <=? hi
      then fast_count fuel' X hi (i + 2) (if member X i then acc else acc + 1)
      else acc
  end.

Definition pi_fast (hi : Z) : Z :=
  if hi <? 2 then 0
  else let fuel := fuel_for hi in
       fast_count fuel (fast_loop fuel fuel ∅ hi 3) hi 3 1.

(** Side conditions on the fuel that a method hands to its loop. *)
Ltac fuel_ok := unfold fuel_for; first [lia | simpl; lia].

(** * The monad *)

Lemma bind_Ok {A B} (m : result A) (f : A → result B) (b : B) :
  m ≫= f = Ok b ↔ ∃ a, m = Ok a ∧ f a = Ok b.
Proof.
  destruct m as [a|e]; simpl; split.
  - intros H. exists a. auto.
  - intros (a' & Ha & Hf). congruence.
  - discriminate.
  - intros (a' & Ha & _). discriminate.
Qed.

Lemma bind_Ok_l {A B} (m : result A) (f : A → result B) (a : A) :
  m = Ok a → m ≫= f = f a.
Proof. intros ->. reflexivity. Qed.

(** * Words, shifts and masks *)

Lemma shiftr_4 i : Z.shiftr i (1 + wordBitsLog2) = i / 16.
Proof. change (1 + wordBitsLog2) with 4. now rewrite Z.shiftr_div_pow2. Qed.

Lemma land_wordMask x : Z.land x wordMask = x mod 8.
Proof. change wordMask with (Z.ones 3). now rewrite Z.land_ones. Qed.

Lemma to_word_mod z : to_word z = z mod 256.
Proof. unfold to_word. change wordBits with 8. now rewrite Z.land_ones. Qed.

Lemma bitpos i : Z.land (Z.shiftr i 1) wordMask = (i / 2) mod 8.
Proof. now rewrite land_wordMask, Z.shiftr_div_pow2. Qed.

Lemma bitpos_uint i : Z.land (Z.shiftr (to_uint i) 1) wordMask = (i / 2) mod 8.
Proof.
  rewrite land_wordMask, Z.shiftr_div_pow2 by lia. unfold to_uint.
  change (2 ^ 1) with 2. rewrite (Z.mod_eq i) by lia.
  replace (i - 2 ^ 64 * (i / 2 ^ 64)) with (i + (- 2 ^ 63 * (i / 2 ^ 64)) * 2) by lia.
  rewrite Z.div_add by lia.
  replace (- 2 ^ 63 * (i / 2 ^ 64)) with ((- 2 ^ 60 * (i / 2 ^ 64)) * 8) by lia.
  apply Z.mod_add. lia.
Qed.

Lemma bitpos_range i : 0 <= (i / 2) mod 8 < 8.
Proof. apply Z.mod_pos_bound. lia. Qed.

(** The value that [bit] extracts from a word is its bit at [k]. *)
Lemma extract_bit w k :
  0 <= k < 8 →
  Z.land (to_word (Z.shiftr w (to_word k))) 1 = Z.b2z (Z.testbit w k).
Proof.
  intros Hk. rewrite (to_word_mod k), (Z.mod_small k) by lia.
  change 1 with (Z.ones 1). rewrite Z.land_ones by lia.
  change (2 ^ 1) with 2. rewrite <- Z.bit0_mod.
  unfold to_word. rewrite Z.land_spec, Z.shiftr_spec by lia.
  change (Z.testbit (Z.ones wordBits) 0) with true.
  now rewrite andb_true_r.
Qed.

(** The word that [setBit] stores has the bit at [k] set and the other
    bits unchanged. *)
Lemma store_bit w k m :
  0 <= k < 8 → 0 <= m →
  Z.testbit (Z.lor w (to_word (Z.shiftl 1 k))) m = (m =? k) || Z.testbit w m.
Proof.
  intros Hk Hm. rewrite Z.lor_spec.
  unfold to_word. rewrite Z.land_spec, Z.shiftl_spec by lia.
  destruct (Z.eqb_spec m k) as [->|Hne].
  - rewrite Z.sub_diag. change (Z.testbit 1 0) with true.
    change wordBits with 8. rewrite Z.ones_spec_low by lia.
    now rewrite orb_true_r.
  - assert (Z.testbit 1 (m - k) = false) as ->.
    { destruct (Z.ltb_spec m k).
      - apply Z.testbit_neg_r. lia.
      - apply Z.bits_above_log2; simpl; lia. }
    simpl. now rewrite orb_false_r.
Qed.

(** * [index], [bit] and [setBit] on a table *)

Lemma index_Ok (t : list Z) k :
  0 <= k < Z.of_nat (length t) →
  ∃ w, index t k = Ok w ∧ t !! Z.to_nat k = Some w.
Proof.
  intros Hk. unfold index.
  destruct (Z.ltb_spec k 0); [lia|].
  destruct (t !! Z.to_nat k) as [w|] eqn:E; [eauto|].
  apply lookup_ge_None in E. lia.
Qed.

Lemma index_Ok_inv (t : list Z) k w :
  index t k = Ok w → 0 <= k < Z.of_nat (length t) ∧ t !! Z.to_nat k = Some w.
Proof.
  unfold index. destruct (Z.ltb_spec k 0); [discriminate|].
  destruct (t !! Z.to_nat k) as [w'|] eqn:E; [|discriminate].
  intros [= <-]. apply lookup_lt_Some in E as E'. split; [lia|done].
Qed.

Lemma bit_marked s i :
  0 <= i / 16 < Z.of_nat (length (table s)) →
  bit s i = Ok (Z.b2z (marked (table s) i)).
Proof.
  intros Hi. unfold bit, marked. rewrite shiftr_4.
  destruct (index_Ok (table s) (i / 16) Hi) as (w & -> & ->). simpl.
  rewrite bitpos. f_equal. apply extract_bit, bitpos_range.
Qed.

Lemma bit_Ok_inv s i b :
  bit s i = Ok b →
  0 <= i / 16 < Z.of_nat (length (table s)) ∧ b = Z.b2z (marked (table s) i).
Proof.
  unfold bit. rewrite shiftr_4. intros (w & Hw & Hb)%bind_Ok.
  apply index_Ok_inv in Hw as [Hr Hw]. split; [done|].
  injection Hb as <-. unfold marked. rewrite Hw. simpl.
  rewrite bitpos. apply extract_bit, bitpos_range.
Qed.

Lemma setBit_marked s j :
  0 <= j / 16 < Z.of_nat (length (table s)) →
  ∃ s', setBit s j = Ok s' ∧ size s' = size s ∧ count s' = count s ∧
        length (table s') = length (table s) ∧
        ∀ i, 0 <= i →
             marked (table s') i = (i / 2 =? j / 2) || marked (table s) i.
Proof.
  intros Hj. unfold setBit. rewrite shiftr_4.
  destruct (index_Ok (table s) (j / 16) Hj) as (w & -> & Hw). simpl.
  eexists. split; [reflexivity|]. simpl.
  split; [done|]. split; [done|]. split; [apply length_insert|].
  intros i Hi. unfold marked. rewrite bitpos_uint.
  destruct (Z.eq_dec (i / 16) (j / 16)) as [E|E].
  - rewrite E, list_lookup_insert_eq by lia. simpl.
    rewrite Hw. simpl. rewrite store_bit by (auto using bitpos_range || apply bitpos_range).
    f_equal.
    assert (i / 2 / 8 = j / 2 / 8) by (rewrite !Z.div_div by lia; exact E).
    pose proof (Z.div_mod (i / 2) 8). pose proof (Z.div_mod (j / 2) 8).
    destruct (Z.eqb_spec ((i / 2) mod 8) ((j / 2) mod 8)),
             (Z.eqb_spec (i / 2) (j / 2)); try reflexivity; exfalso; lia.
  - rewrite list_lookup_insert_ne.
    2:{ intros E'. apply E. apply Z2Nat.inj in E'; try lia.
        apply Z.div_pos; lia. }
    destruct (Z.eqb_spec (i / 2) (j / 2)) as [E'|E']; [|reflexivity].
    exfalso. apply E. rewrite <- !(Z.div_div _ 2 8) by lia. now rewrite E'.
Qed.

(** * Divisors and primes *)

Lemma rem_divide n d : d ≠ 0 → (Z.rem n d =? 0) = true ↔ (d | n).
Proof. intros Hd. rewrite Z.eqb_eq. now apply Z.rem_divide. Qed.

Lemma divide_odd d m : (d | m) → Z.odd m = true → Z.odd d = true.
Proof.
  intros [q ->]. rewrite Z.odd_mul. now intros [_ H]%andb_true_iff.
Qed.

Lemma divide_bounds d m : 0 < m → 0 < d → (d | m) → d <= m.
Proof. intros Hm Hd H. apply Z.divide_pos_le; assumption. Qed.

Lemma composite_not_prime d m : 1 < d < m → (d | m) → ¬ Z.prime m.
Proof. intros Hd Hdm [_ Hp]. exact (Hp d Hd Hdm). Qed.

Lemma not_prime_divisor m :
  1 < m → ¬ Z.prime m → ∃ d, 1 < d < m ∧ (d | m).
Proof.
  intros Hm Hp. apply not_prime_divide; [done|].
  intros H. apply Hp. now apply prime_alt.
Qed.

(** A composite number has a divisor that is at most its square root. *)
Lemma small_divisor m :
  1 < m → ¬ Z.prime m → ∃ d, 1 < d ∧ d * d <= m ∧ (d | m).
Proof.
  intros Hm Hp. destruct (not_prime_divisor m Hm Hp) as (d & Hd & q & Hq).
  assert (1 < q) by nia.
  destruct (Z_le_gt_dec d q).
  - exists d. split; [lia|]. split; [nia|]. now exists q.
  - exists q. split; [lia|]. split; [nia|]. exists d. lia.
Qed.

Lemma prime_divisor_aux (k : nat) :
  ∀ m, 1 < m → m <= Z.of_nat k → ∃ p, Z.prime p ∧ (p | m).
Proof.
  induction k as [|k IH]; intros m Hm Hk; [lia|].
  destruct (decide (Z.prime m)) as [Hp|Hp].
  - exists m. split; [done|]. apply Z.divide_refl.
  - destruct (not_prime_divisor m Hm Hp) as (d & Hd & Hdm).
    destruct (IH d) as (p & Hp' & Hpd); [lia|lia|].
    exists p. split; [done|]. now apply Z.divide_trans with d.
Qed.

Lemma prime_divisor m : 1 < m → ∃ p, Z.prime p ∧ (p | m).
Proof. intros Hm. apply (prime_divisor_aux (Z.to_nat m)); lia. Qed.


(** A composite number has a prime divisor that is at most its square
    root. *)
Lemma small_prime_divisor m :
  1 < m → ¬ Z.prime m → ∃ p, Z.prime p ∧ p * p <= m ∧ (p | m).
Proof.
  intros Hm Hp. destruct (small_divisor m Hm Hp) as (d & Hd & Hdd & Hdm).
  destruct (prime_divisor d Hd) as (p & Hp' & Hpd).
  exists p. split; [done|].
  pose proof (Z.prime_ge_2 p Hp').
  pose proof (divide_bounds p d ltac:(lia) ltac:(lia) Hpd).
  split; [nia|]. now apply Z.divide_trans with d.
Qed.

Lemma odd_ge_3 d : 1 < d → Z.odd d = true → 3 <= d.
Proof.
  intros Hd Ho. destruct (Z.eq_dec d 2) as [->|]; [discriminate|lia].
Qed.

Lemma odd_half_inj a b :
  Z.odd a = true → Z.odd b = true → a / 2 = b / 2 → a = b.
Proof.
  intros Ha Hb E.
  pose proof (Zdiv.Zmod_odd a) as Ha'. pose proof (Zdiv.Zmod_odd b) as Hb'.
  rewrite Ha in Ha'. rewrite Hb in Hb'.
  pose proof (Z.div_mod a 2). pose proof (Z.div_mod b 2). lia.
Qed.

Lemma odd_add_2 i : Z.odd (i + 2) = Z.odd i.
Proof. rewrite Z.odd_add. change (Z.odd 2) with false. now destruct (Z.odd i). Qed.

(** * [New] *)

Lemma struck_upto_done mk hi i :
  3 <= i → hi < i * i → struck_upto mk hi i →
  ∀ m, 3 <= m <= hi → Z.odd m = true → mk m = negb (bool_decide (Z.prime m)).
Proof.
  intros Hi Hsz Hs m Hm Ho. destruct (Hs m Hm Ho) as [Ha Hb].
  destruct (decide (Z.prime m)) as [Hp|Hp].
  - rewrite bool_decide_eq_true_2 by done. simpl.
    destruct (mk m); [|done]. now destruct Ha.
  - rewrite bool_decide_eq_false_2 by done. simpl.
    destruct (small_divisor m ltac:(lia) Hp) as (d & Hd & Hdd & Hdm).
    pose proof (odd_ge_3 d Hd (divide_odd d m Hdm Ho)).
    apply (Hb d); [nia|nia|done].
Qed.

Lemma odd_divisor_next d i m :
  Z.odd i = true → Z.odd m = true → (d | m) → d < i + 2 → d < i ∨ d = i.
Proof.
  intros Hoi Ho Hdiv Hd. pose proof (divide_odd d m Hdiv Ho) as Hod.
  destruct (Z.eq_dec d (i + 1)) as [->|]; [|lia].
  rewrite Z.odd_add, Hoi in Hod. discriminate.
Qed.

Lemma struck_upto_skip mk hi i :
  3 <= i <= hi → Z.odd i = true → mk i = true →
  struck_upto mk hi i → struck_upto mk hi (i + 2).
Proof.
  intros Hi Hoi Hmi Hs m Hm Ho.
  destruct (Hs m Hm Ho) as [Ha Hb]. split; [done|].
  intros d Hd Hdm Hdiv.
  destruct (odd_divisor_next d i m Hoi Ho Hdiv ltac:(lia)) as [Hlt| ->].
  - apply (Hb d); [lia|done|done].
  - destruct (Hs i ltac:(lia) Hoi) as [Hnp _].
    destruct (small_divisor i ltac:(lia) (Hnp Hmi)) as (e & He & Hee & Hei).
    pose proof (odd_ge_3 e He (divide_odd e i Hei Hoi)).
    apply (Hb e); [nia|nia|]. now apply Z.divide_trans with i.
Qed.

(** An odd multiple [q * i] of [i] other than [i] is [3 * i + t * (i + i)]. *)
Lemma odd_multiple i q :
  Z.odd q = true → 1 < q →
  ∃ t, 0 <= t ∧ q * i = 3 * i + t * (i + i).
Proof.
  intros Hoq Hq. pose proof (odd_ge_3 q Hq Hoq).
  pose proof (Zdiv.Zmod_odd q) as Hoq'. rewrite Hoq in Hoq'.
  pose proof (Z.div_mod q 2 ltac:(lia)).
  exists (q / 2 - 1). split; [lia|]. nia.
Qed.

Lemma struck_upto_strike mk mk' hi i :
  3 <= i <= hi → Z.odd i = true → struck_upto mk hi i →
  (∀ m, 3 <= m <= hi → Z.odd m = true →
        mk' m = true ↔
        mk m = true ∨ ∃ t, 0 <= t ∧ m = 3 * i + t * (i + i)) →
  struck_upto mk' hi (i + 2).
Proof.
  intros Hi Hoi Hs Hmk m Hm Ho.
  destruct (Hs m Hm Ho) as [Ha Hb]. split.
  - rewrite Hmk by done. intros [H|(t & Ht & ->)]; [auto|].
    apply (composite_not_prime i); [nia|]. exists (3 + 2 * t). lia.
  - intros d Hd Hdm Hdiv. apply Hmk; [done|done|].
    destruct (odd_divisor_next d i m Hoi Ho Hdiv ltac:(lia)) as [Hlt| ->].
    + left. apply (Hb d); [lia|done|done].
    + right. destruct Hdiv as [q Hq].
      assert (Z.odd q = true) as Hoq.
      { rewrite Hq, Z.odd_mul in Ho. now apply andb_true_iff in Ho as [? _]. }
      destruct (odd_multiple i q Hoq ltac:(nia)) as (t & Ht & E).
      exists t. split; [done|lia].
Qed.

Lemma covers_index s i :
  covers s → 0 <= i <= size s → 0 <= i / 16 < Z.of_nat (length (table s)).
Proof.
  intros [H0 H1] Hi. split; [apply Z.div_pos; lia|].
  eapply Z.le_lt_trans; [|exact H1]. apply Z.div_le_mono; lia.
Qed.

Lemma New_strike_spec (fuel : nat) :
  ∀ s i j, 1 <= i → 0 <= j → covers s →
    (0 < fuel)%nat → size s + 1 < j + Z.of_nat fuel →
    ∃ s', New_strike fuel s i j = Ok s' ∧ size s' = size s ∧
          count s' = count s ∧ length (table s') = length (table s) ∧
          ∀ m, 0 <= m →
               marked (table s') m = true ↔
               marked (table s) m = true ∨
               ∃ t, 0 <= t ∧ j + t * (i + i) <= size s ∧ m / 2 = (j + t * (i + i)) / 2.
Proof.
  induction fuel as [|fuel IH]; intros s i j Hi Hj Hc Hf Hfuel; [lia|].
  simpl. destruct (Z.leb_spec j (size s)) as [Hjs|Hjs].
  - destruct (setBit_marked s j) as (s1 & E1 & Hsz & Hct & Hlen & Hm1).
    { apply covers_index; [done|lia]. }
    rewrite E1. simpl.
    destruct (IH s1 i (j + (i + i))) as (s' & E' & Hsz' & Hct' & Hlen' & Hm');
      try lia.
    { unfold covers. now rewrite Hsz, Hlen. }
    exists s'. split; [done|]. split; [lia|]. split; [lia|]. split; [lia|].
    intros m Hm. rewrite Hm' by done. rewrite Hm1 by done.
    rewrite orb_true_iff, Z.eqb_eq, Hsz. split.
    + intros [[E|H]|(t & Ht & Hle & E)].
      * right. exists 0. split; [lia|]. rewrite Z.mul_0_l, Z.add_0_r. done.
      * now left.
      * right. exists (t + 1). split; [lia|].
        replace (j + (t + 1) * (i + i)) with (j + (i + i) + t * (i + i)) by lia.
        done.
    + intros [H|(t & Ht & Hle & E)]; [left; now right|].
      destruct (Z.eq_dec t 0) as [->|Hne].
      * left; left. now rewrite Z.mul_0_l, Z.add_0_r in E.
      * right. exists (t - 1). split; [lia|].
        replace (j + (i + i) + (t - 1) * (i + i)) with (j + t * (i + i)) by lia.
        done.
  - exists s. split; [done|]. split; [done|]. split; [done|]. split; [done|].
    intros m Hm. split; [now left|].
    intros [H|(t & Ht & Hle & E)]; [done|]. nia.
Qed.

Lemma struck_strike s s' i :
  3 <= i <= size s → Z.odd i = true → struck s i →
  size s' = size s → length (table s') = length (table s) →
  (∀ m, 0 <= m →
        marked (table s') m = true ↔
        marked (table s) m = true ∨
        ∃ t, 0 <= t ∧ 3 * i + t * (i + i) <= size s ∧
             m / 2 = (3 * i + t * (i + i)) / 2) →
  struck s' (i + 2).
Proof.
  intros Hi Hoi [Hc Hs] Hsz Hlen Hmk. split.
  { unfold covers. now rewrite Hsz, Hlen. }
  rewrite Hsz. apply (struck_upto_strike (marked (table s))); [done..|].
  intros m Hm Ho. rewrite Hmk by lia.
  assert (∀ t, Z.odd (3 * i + t * (i + i)) = true) as Hodd.
  { intros t. replace (3 * i + t * (i + i)) with (i + 2 * (i + t * i)) by lia.
    now rewrite Z.odd_add_mul_2. }
  split; (intros [H|(t & Ht & H)]; [now left|right; exists t]).
  - destruct H as [_ E]. split; [done|]. apply odd_half_inj; auto.
  - subst m. split; [done|]. split; [lia|done].
Qed.

Lemma struck_sieved s i :
  3 <= i → size s < i * i → struck s i → sieved s.
Proof.
  intros Hi Hsz [Hc Hs]. split; [done|].
  now apply (struck_upto_done _ _ i).
Qed.

Lemma New_loop_spec (fuel : nat) :
  ∀ s i, 3 <= i → Z.odd i = true → struck s i →
    (0 < fuel)%nat → size s + 1 < i + Z.of_nat fuel →
    ∃ s', New_loop fuel s i = Ok s' ∧ size s' = size s ∧
          count s' = count s ∧ length (table s') = length (table s) ∧
          sieved s'.
Proof.
  induction fuel as [|fuel IH]; intros s i Hi Hoi Hst Hf Hfuel; [lia|].
  simpl. destruct (Z.leb_spec (i * i) (size s)) as [Hii|Hii].
  - assert (i <= size s) as His by nia.
    rewrite (bit_marked s i) by (apply covers_index; [apply Hst|lia]).
    simpl. destruct (marked (table s) i) eqn:Hmi; simpl.
    + apply IH; [lia|now rewrite odd_add_2| |lia|lia].
      split; [apply Hst|]. apply struck_upto_skip; [lia|done|done|apply Hst].
    + destruct (New_strike_spec (fuel_for (size s)) s i (3 * i))
        as (s1 & E1 & Hsz & Hct & Hlen & Hmk);
        [lia|lia|apply Hst|fuel_ok|fuel_ok|].
      rewrite E1. simpl.
      destruct (IH s1 (i + 2)) as (s' & E' & Hsz' & Hct' & Hlen' & Hsv);
        [lia|now rewrite odd_add_2| |lia|lia|].
      { apply (struck_strike s s1 i); [lia|done..]. }
      exists s'. split; [done|]. split; [lia|]. split; [lia|]. split; [lia|done].
  - exists s. split; [done|]. split; [done|]. split; [done|]. split; [done|].
    now apply (struck_sieved s i).
Qed.

(** * The freshly allocated table *)

Lemma marked_replicate n i : marked (replicate n 0) i = false.
Proof.
  unfold marked. destruct (replicate n 0 !! Z.to_nat (i / 16)) as [w|] eqn:E.
  - apply lookup_replicate in E as [-> _]. apply Z.testbit_0_l.
  - apply Z.testbit_0_l.
Qed.

Lemma table_length sz :
  0 <= sz → 1 + Z.quot (sz + wordBits - 1) wordBits = 1 + (sz + 7) / 8.
Proof.
  intros H. change wordBits with 8. rewrite Z.quot_div_nonneg by lia.
  do 2 f_equal. lia.
Qed.

Lemma New_spec sz :
  0 <= sz →
  ∃ s, New sz = Ok s ∧ size s = sz ∧ count s = 0 ∧
       Z.of_nat (length (table s)) = 1 + (sz + 7) / 8 ∧ sieved s.
Proof.
  intros Hsz. unfold New, make. rewrite table_length by done.
  assert (0 <= (sz + 7) / 8) by (apply Z.div_pos; lia).
  destruct (Z.ltb_spec (1 + (sz + 7) / 8) 0); [lia|]. simpl.
  set (s0 := mkSieve sz 0 (replicate (Z.to_nat (1 + (sz + 7) / 8)) 0)).
  destruct (New_loop_spec (fuel_for sz) s0 3) as (s & E & Hs & Hc & Hl & Hsv).
  - lia.
  - reflexivity.
  - split.
    + split; [done|]. simpl. rewrite length_replicate.
      rewrite Z2Nat.id by lia.
      pose proof (Z.div_mod sz 16 ltac:(lia)).
      pose proof (Z.mod_pos_bound sz 16 ltac:(lia)).
      pose proof (Z.div_mod (sz + 7) 8 ltac:(lia)).
      pose proof (Z.mod_pos_bound (sz + 7) 8 ltac:(lia)). lia.
    + intros m Hm Ho. simpl. rewrite marked_replicate. split; [done|]. lia.
  - fuel_ok.
  - fuel_ok.
  - exists s. split; [done|]. split; [done|]. split; [done|]. split; [|done].
    rewrite Hl. simpl. rewrite length_replicate. lia.
Qed.

(** * [Prime] *)

Lemma sieved_bit s m :
  sieved s → 3 <= m <= size s → Z.odd m = true →
  bit s m = Ok (if bool_decide (Z.prime m) then 0 else 1).
Proof.
  intros [Hc Hs] Hm Ho. rewrite bit_marked by (apply covers_index; [done|lia]).
  rewrite Hs by done. now destruct (bool_decide (Z.prime m)).
Qed.

Lemma land_1 n : Z.land n 1 = if Z.odd n then 1 else 0.
Proof.
  change 1 with (Z.ones 1) at 1. rewrite Z.land_ones by lia.
  apply Zdiv.Zmod_odd.
Qed.

Lemma even_not_prime n : 2 < n → Z.odd n = false → ¬ Z.prime n.
Proof.
  intros Hn Ho. apply (composite_not_prime 2); [lia|].
  pose proof (Zdiv.Zmod_odd n) as H. rewrite Ho in H.
  exists (n / 2). pose proof (Z.div_mod n 2 ltac:(lia)). lia.
Qed.

Lemma prime_gt_1 n : Z.prime n → 1 < n.
Proof. now intros [H _]. Qed.

Lemma Prime_root_spec (fuel : nat) :
  ∀ n root, 0 <= root → root * root <= n →
    (0 < fuel)%nat → n < root + Z.of_nat fuel →
    ∃ r, Prime_root fuel n root = Ok r ∧ root <= r ∧
         r * r <= n < (r + 1) * (r + 1).
Proof.
  induction fuel as [|fuel IH]; intros n root Hr Hrr Hf Hfuel; [lia|].
  simpl. destruct (Z.leb_spec ((root + 1) * (root + 1)) n) as [H|H].
  - destruct (IH n (root + 1)) as (r & E & Hle & Hsq); [lia|lia|nia|lia|].
    exists r. split; [done|]. split; [lia|done].
  - exists root. split; [done|]. split; [lia|]. lia.
Qed.

Lemma Prime_trial_spec (fuel : nat) :
  ∀ s n root d, sieved s → root <= size s → 3 <= d → Z.odd d = true →
    (0 < fuel)%nat → root + 1 < d + Z.of_nat fuel →
    ∃ b, Prime_trial fuel s n root d = Ok b ∧
         (b = false ↔ ∃ p, d <= p <= root ∧ Z.prime p ∧ (p | n)).
Proof.
  induction fuel as [|fuel IH]; intros s n root d Hs Hroot Hd Hod Hf Hfuel; [lia|].
  simpl. destruct (Z.leb_spec d root) as [Hdr|Hdr].
  - rewrite sieved_bit by (done || lia). simpl.
    destruct (decide (Z.prime d)) as [Hp|Hp].
    + rewrite bool_decide_eq_true_2 by done. simpl.
      destruct (Z.rem n d =? 0) eqn:Hrem.
      * exists false. split; [done|]. split; [|done]. intros _.
        exists d. split; [lia|]. split; [done|]. apply rem_divide in Hrem; [done|lia].
      * destruct (IH s n root (d + 2)) as (b & E & Hb);
          [done|done|lia|now rewrite odd_add_2|lia|lia|].
        exists b. split; [done|]. rewrite Hb. split.
        -- intros (p & Hp1 & Hp2 & Hp3). exists p. split; [lia|done].
        -- intros (p & Hp1 & Hp2 & Hp3).
           destruct (Z.eq_dec p d) as [->|Hne].
           { apply rem_divide in Hp3; [congruence|lia]. }
           destruct (Z.eq_dec p (d + 1)) as [->|Hne'].
           { exfalso. apply (even_not_prime (d + 1)); [lia| |done].
             rewrite Z.odd_add, Hod. done. }
           exists p. split; [lia|done].
    + rewrite bool_decide_eq_false_2 by done. simpl.
      destruct (IH s n root (d + 2)) as (b & E & Hb);
        [done|done|lia|now rewrite odd_add_2|lia|lia|].
      exists b. split; [done|]. rewrite Hb. split.
      * intros (p & Hp1 & Hp2 & Hp3). exists p. split; [lia|done].
      * intros (p & Hp1 & Hp2 & Hp3).
        destruct (Z.eq_dec p d) as [->|Hne]; [done|].
        destruct (Z.eq_dec p (d + 1)) as [->|Hne'].
        { exfalso. apply (even_not_prime (d + 1)); [lia| |done].
          rewrite Z.odd_add, Hod. done. }
        exists p. split; [lia|done].
  - exists true. split; [done|]. split; [done|].
    intros (p & Hp1 & _). lia.
Qed.

(** Outside [[0, size*size]] no table access happens: the answer is
    [true] for 2 and [false] otherwise. *)
Lemma Prime_beyond s n :
  size s * size s < n → Prime s n = Ok (bool_decide (n = 2)).
Proof.
  intros Hn. unfold Prime.
  destruct (Z.ltb_spec n 2); [rewrite bool_decide_eq_false_2 by lia; done|].
  destruct (Z.eqb_spec n 2); [rewrite bool_decide_eq_true_2 by lia; done|].
  rewrite bool_decide_eq_false_2 by lia.
  destruct (Z.land n 1 =? 0); [done|].
  destruct (Z.leb_spec n (size s)); [nia|].
  destruct (Z.leb_spec n (size s * size s)); [lia|done].
Qed.

Lemma Prime_spec s n :
  sieved s → n <= size s * size s → Prime s n = Ok (bool_decide (Z.prime n)).
Proof.
  intros Hs Hn. unfold Prime.
  destruct (Z.ltb_spec n 2) as [H2|H2].
  { rewrite bool_decide_eq_false_2; [done|]. intros ?%prime_gt_1. lia. }
  destruct (Z.eqb_spec n 2) as [->|Hne].
  { rewrite bool_decide_eq_true_2; [done|]. apply Z.prime_2. }
  rewrite land_1. destruct (Z.odd n) eqn:Ho; simpl.
  2:{ rewrite bool_decide_eq_false_2; [done|]. apply even_not_prime; [lia|done]. }
  destruct (Z.leb_spec n (size s)) as [Hsz|Hsz].
  { destruct (Z.ltb_spec 2 n); [|lia]. simpl.
    rewrite sieved_bit by (done || lia). simpl.
    now destruct (bool_decide (Z.prime n)). }
  destruct (Z.leb_spec n (size s * size s)); [|lia].
  destruct (Prime_root_spec (fuel_for n) n 1) as (r & -> & Hr1 & Hr);
    [lia|lia|fuel_ok|fuel_ok|].
  simpl. destruct (Z.eqb_spec (r * r) n) as [Hsq|Hsq].
  { rewrite bool_decide_eq_false_2; [done|]. rewrite <- Hsq.
    apply Z.not_prime_square. }
  assert (0 <= size s) by apply Hs.
  destruct (Prime_trial_spec (fuel_for n) s n r 3) as (b & -> & Hb);
    [done|nia|lia|done|fuel_ok|unfold fuel_for; nia|].
  f_equal. destruct b.
  - symmetry. apply bool_decide_eq_true_2.
    destruct (decide (Z.prime n)) as [Hp|Hp]; [done|]. exfalso.
    destruct (small_prime_divisor n ltac:(lia) Hp) as (p & Hp1 & Hp2 & Hp3).
    assert (false = true); [|done]. symmetry. apply Hb.
    exists p. split; [|done].
    pose proof (odd_ge_3 p (prime_gt_1 p Hp1) (divide_odd p n Hp3 Ho)). nia.
  - symmetry. apply bool_decide_eq_false_2.
    destruct (proj1 Hb eq_refl) as (p & Hp1 & Hp2 & Hp3).
    apply (composite_not_prime p); [nia|done].
Qed.

(** * Lists of primes and the counting function *)

Lemma primes_between_nil lo hi : hi < lo → primes_between lo hi = [].
Proof. intros H. unfold primes_between. now rewrite seqZ_nil by lia. Qed.

Lemma primes_between_cons lo hi :
  lo <= hi →
  primes_between lo hi =
  (if bool_decide (Z.prime lo) then [lo] else []) ++ primes_between (lo + 1) hi.
Proof.
  intros H. unfold primes_between. rewrite seqZ_cons by lia.
  replace (Z.pred (hi + 1 - lo)) with (hi + 1 - (lo + 1)) by lia.
  rewrite filter_cons. change (Z.succ lo) with (lo + 1).
  destruct (decide (Z.prime lo)).
  - rewrite bool_decide_eq_true_2 by done. done.
  - rewrite bool_decide_eq_false_2 by done. done.
Qed.

Lemma primes_between_split lo mid hi :
  lo <= mid + 1 → mid <= hi →
  primes_between lo hi = primes_between lo mid ++ primes_between (mid + 1) hi.
Proof.
  intros H1 H2. unfold primes_between. rewrite <- filter_app. f_equal.
  replace (hi + 1 - lo) with ((mid + 1 - lo) + (hi + 1 - (mid + 1))) by lia.
  rewrite seqZ_app by lia. do 2 f_equal. lia.
Qed.

(** From an odd [i >= 3]: [i + 1] is even, hence not prime. *)
Lemma primes_between_odd i hi :
  3 <= i → Z.odd i = true → i <= hi →
  primes_between i hi =
  (if bool_decide (Z.prime i) then [i] else []) ++ primes_between (i + 2) hi.
Proof.
  intros Hi Ho Hle. rewrite primes_between_cons by done. f_equal.
  destruct (Z.eq_dec i hi) as [->|Hne].
  { now rewrite !primes_between_nil by lia. }
  rewrite primes_between_cons by lia.
  rewrite bool_decide_eq_false_2.
  - simpl. now replace (i + 1 + 1) with (i + 2) by lia.
  - apply even_not_prime; [lia|]. rewrite Z.odd_add, Ho. done.
Qed.

Lemma pi_small x : x < 2 → pi x = 0.
Proof. intros H. unfold pi. now rewrite primes_between_nil by lia. Qed.

Lemma pi_odd_primes x :
  2 <= x → pi x = 1 + Z.of_nat (length (primes_between 3 x)).
Proof.
  intros H. unfold pi. rewrite primes_between_cons by lia.
  rewrite bool_decide_eq_true_2 by apply Z.prime_2.
  change (2 + 1) with 3. simpl. lia.
Qed.

Lemma pi_nonneg x : 0 <= pi x.
Proof. unfold pi. lia. Qed.

Lemma pi_mono a b : a <= b → pi a <= pi b.
Proof.
  intros H. destruct (Z_lt_le_dec a 2).
  - rewrite pi_small by done. apply pi_nonneg.
  - unfold pi. rewrite (primes_between_split 2 a b) by lia.
    rewrite length_app. lia.
Qed.

Lemma pi_succ x :
  1 <= x → pi (x + 1) = pi x + (if bool_decide (Z.prime (x + 1)) then 1 else 0).
Proof.
  intros H. unfold pi. rewrite (primes_between_split 2 x (x + 1)) by lia.
  rewrite length_app. rewrite (primes_between_cons (x + 1)) by lia.
  rewrite (primes_between_nil (x + 1 + 1)) by lia.
  destruct (bool_decide (Z.prime (x + 1))); cbn [app length]; lia.
Qed.

(** Over an odd [i >= 3] and the even number after it. *)
Lemma pi_odd_step i :
  3 <= i → Z.odd i = true →
  pi (i + 1) = pi (i - 1) + (if bool_decide (Z.prime i) then 1 else 0).
Proof.
  intros Hi Ho. rewrite pi_succ by lia.
  replace i with (i - 1 + 1) at 1 by lia. rewrite pi_succ by lia.
  replace (i - 1 + 1) with i by lia.
  rewrite (bool_decide_eq_false_2 (Z.prime (i + 1))); [lia|].
  apply even_not_prime; [lia|]. rewrite Z.odd_add, Ho. done.
Qed.

(** * [Count] *)

Lemma sieved_set_count s c : sieved s → sieved (set_count s c).
Proof. intros H. exact H. Qed.

Lemma Count_loop_spec (fuel : nat) :
  ∀ s i, sieved s → 3 <= i → Z.odd i = true →
    (0 < fuel)%nat → size s + 1 < i + Z.of_nat fuel →
    Count_loop fuel s i =
    Ok (set_count s (count s + Z.of_nat (length (primes_between i (size s))))).
Proof.
  induction fuel as [|fuel IH]; intros s i Hs Hi Ho Hf Hfuel; [lia|].
  simpl. destruct (Z.leb_spec i (size s)) as [His|His].
  - rewrite sieved_bit by (done || lia). simpl.
    rewrite (primes_between_odd i) by done.
    destruct (bool_decide (Z.prime i)); simpl.
    + rewrite IH; [|done|lia|now rewrite odd_add_2|lia|simpl; lia].
      unfold set_count. simpl. f_equal. f_equal. lia.
    + rewrite IH; [|done|lia|now rewrite odd_add_2|lia|simpl; lia].
      done.
  - rewrite primes_between_nil by lia. simpl. rewrite Z.add_0_r.
    now destruct s.
Qed.

Lemma Count_spec s :
  sieved s → count s = 0 →
  Count s = Ok (pi (size s), set_count s (pi (size s))).
Proof.
  intros Hs Hc. unfold Count. rewrite Hc. simpl.
  assert (0 <= size s) by apply Hs.
  destruct (Z.leb_spec 2 (size s)) as [H2|H2].
  - rewrite Count_loop_spec;
      [|done|lia|done|fuel_ok|fuel_ok].
    simpl. rewrite pi_odd_primes by done. done.
  - rewrite Count_loop_spec;
      [|done|lia|done|fuel_ok|fuel_ok].
    simpl. rewrite Hc, primes_between_nil by lia. rewrite pi_small by lia. done.
Qed.

(** The second call: either the stored count is returned, or it is zero
    and the scan finds zero again. *)
Lemma Count_again s c :
  sieved s → c = pi (size s) →
  Count (set_count s c) = Ok (c, set_count s c).
Proof.
  intros Hs ->. destruct (Z.eq_dec (pi (size s)) 0) as [E|E].
  - rewrite Count_spec; [|done|done]. simpl. rewrite E. done.
  - unfold Count. simpl. destruct (Z.eqb_spec (pi (size s)) 0); [done|]. done.
Qed.

(** * [NthPrime] *)

Lemma NthPrime_loop_spec (fuel : nat) :
  ∀ s n value cnt, sieved s → 3 <= value → Z.odd value = true →
    cnt = pi (value - 1) → cnt < n →
    (0 < fuel)%nat → size s + 1 < value + Z.of_nat fuel →
    (∃ p, NthPrime_loop fuel s n value cnt = Ok p ∧
          value <= p <= size s ∧ nth_prime n p) ∨
    (NthPrime_loop fuel s n value cnt = Ok 0 ∧ pi (size s) < n).
Proof.
  induction fuel as [|fuel IH];
    intros s n value cnt Hs Hv Ho Hcnt Hlt Hf Hfuel; [lia|].
  simpl. destruct (Z.leb_spec value (size s)) as [Hvs|Hvs].
  - rewrite Prime_spec by (done || nia). simpl.
    pose proof (pi_odd_step value Hv Ho) as Hstep.
    assert (pi value = pi (value - 1) +
                       (if bool_decide (Z.prime value) then 1 else 0)) as Hpv.
    { replace value with (value - 1 + 1) at 1 by lia. rewrite pi_succ by lia.
      now replace (value - 1 + 1) with value by lia. }
    destruct (decide (Z.prime value)) as [Hp|Hp].
    + rewrite bool_decide_eq_true_2 in * by done.
      destruct (Z.eqb_spec (cnt + 1) n) as [E|E].
      * left. exists value. split; [done|]. split; [lia|]. split; [done|lia].
      * destruct (IH s n (value + 2) (cnt + 1)) as [(p & Ep & Hp1 & Hp2)|[E0 Hpi]];
          [done|lia|now rewrite odd_add_2|
            replace (value + 2 - 1) with (value + 1) by lia; lia|lia|lia|lia| |].
        -- left. exists p. split; [done|]. split; [lia|done].
        -- right. done.
    + rewrite bool_decide_eq_false_2 in * by done.
      destruct (IH s n (value + 2) cnt) as [(p & Ep & Hp1 & Hp2)|[E0 Hpi]];
        [done|lia|now rewrite odd_add_2|
          replace (value + 2 - 1) with (value + 1) by lia; lia|lia|lia|lia| |].
      * left. exists p. split; [done|]. split; [lia|done].
      * right. done.
  - right. split; [done|].
    pose proof (pi_mono (size s) (value - 1) ltac:(lia)). lia.
Qed.

(** * [Factor] and [FactorUnique] run in lockstep *)

Lemma fuel_for_S n : fuel_for n = S (Z.to_nat n).
Proof. fuel_ok. Qed.

Lemma repeat_snoc (x : Z) cnt c :
  cnt + 1 <= c →
  [x] ++ repeat x (Z.to_nat (c - (cnt + 1))) = repeat x (Z.to_nat (c - cnt)).
Proof.
  intros H. replace (Z.to_nat (c - cnt)) with (S (Z.to_nat (c - (cnt + 1)))) by lia.
  reflexivity.
Qed.

Lemma expand_app us vs : expand (us ++ vs) = expand us ++ expand vs.
Proof. unfold expand. apply flat_map_app. Qed.

Lemma expand_one d c : expand [mkUnique d c] = repeat d (Z.to_nat c).
Proof. unfold expand. simpl. apply app_nil_r. Qed.

(** The loop that appends a 2 per round and the loop that counts the
    rounds stop together. *)
Lemma twos_lockstep (fuel : nat) :
  ∀ n cnt res,
    match count_twos fuel n cnt with
    | Ok (n', c) =>
        cnt <= c ∧
        Factor_twos fuel n res = Ok (n', res ++ repeat 2 (Z.to_nat (c - cnt)))
    | Panic e => Factor_twos fuel n res = Panic e
    end.
Proof.
  induction fuel as [|fuel IH]; intros n cnt res; simpl; [done|].
  destruct ((1 <? n) && (Z.rem n 2 =? 0)).
  - specialize (IH (Z.shiftr n 1) (cnt + 1) (res ++ [2])).
    destruct (count_twos fuel (Z.shiftr n 1) (cnt + 1)) as [[n' c]|e]; [|done].
    destruct IH as [Hc ->]. split; [lia|].
    rewrite <- app_assoc, repeat_snoc by done. done.
  - split; [lia|]. rewrite Z.sub_diag. simpl. now rewrite app_nil_r.
Qed.

Lemma strip_lockstep (fuel : nat) :
  ∀ d n cnt res,
    match count_strip fuel d n cnt with
    | Ok (n', c) =>
        cnt <= c ∧
        Factor_strip fuel d n res = Ok (n', res ++ repeat d (Z.to_nat (c - cnt)))
    | Panic e => Factor_strip fuel d n res = Panic e
    end.
Proof.
  induction fuel as [|fuel IH]; intros d n cnt res; simpl; [done|].
  destruct ((1 <? n) && (Z.rem n d =? 0)).
  - specialize (IH d (Z.quot n d) (cnt + 1) (res ++ [d])).
    destruct (count_strip fuel d (Z.quot n d) (cnt + 1)) as [[n' c]|e]; [|done].
    destruct IH as [Hc ->]. split; [lia|].
    rewrite <- app_assoc, repeat_snoc by done. done.
  - split; [lia|]. rewrite Z.sub_diag. simpl. now rewrite app_nil_r.
Qed.

Lemma loop_lockstep (fuel : nat) :
  ∀ s d n us,
    match FactorUnique_loop fuel s d n us with
    | Ok (n', us') => Factor_loop fuel s d n (expand us) = Ok (n', expand us')
    | Panic e => Factor_loop fuel s d n (expand us) = Panic e
    end.
Proof.
  induction fuel as [|fuel IH]; intros s d n us; simpl; [done|].
  destruct ((d <? size s) && (d * d <=? n)); [|done].
  destruct (Prime s d) as [p|e]; simpl; [|done].
  destruct p; simpl.
  - destruct ((1 <? n) && (Z.rem n d =? 0)) eqn:Hg.
    + pose proof (strip_lockstep (fuel_for n) d n 0 (expand us)) as H.
      destruct (count_strip (fuel_for n) d n 0) as [[n' c]|e]; simpl.
      * destruct H as [_ ->]. simpl. rewrite Z.sub_0_r.
        specialize (IH s (d + 2) n' (us ++ [mkUnique d c])).
        rewrite expand_app, expand_one in IH. exact IH.
      * now rewrite H.
    + rewrite fuel_for_S. simpl. rewrite Hg. simpl. apply IH.
  - apply IH.
Qed.

Lemma Factor_FactorUnique s n : expand <$> FactorUnique s n = Factor s n.
Proof.
  unfold Factor, FactorUnique.
  destruct (size s * size s <? n); [done|].
  destruct (n <=? 3); [done|].
  assert (match (if (1 <? n) && (Z.rem n 2 =? 0)
                 then '(n1, cnt) ← count_twos (fuel_for n) n 0;
                      Ok (n1, [mkUnique 2 cnt])
                 else Ok (n, [])) with
          | Ok (n1, us) => Factor_twos (fuel_for n) n [] = Ok (n1, expand us)
          | Panic e => Factor_twos (fuel_for n) n [] = Panic e
          end) as H.
  { destruct ((1 <? n) && (Z.rem n 2 =? 0)) eqn:Hg.
    - pose proof (twos_lockstep (fuel_for n) n 0 []) as H.
      destruct (count_twos (fuel_for n) n 0) as [[n1 c]|e]; [|exact H].
      destruct H as [_ ->]. rewrite Z.sub_0_r. cbn [mbind result_bind].
      now rewrite expand_one.
    - rewrite fuel_for_S. simpl. now rewrite Hg. }
  destruct (if (1 <? n) && (Z.rem n 2 =? 0) then _ else _) as [[n1 us]|e];
    rewrite H; simpl; [|done].
  pose proof (loop_lockstep (fuel_for (size s)) s 3 n1 us) as H'.
  destruct (FactorUnique_loop (fuel_for (size s)) s 3 n1 us) as [[n2 us']|e];
    rewrite H'; simpl; [|done].
  destruct (1 <? n2); [|done].
  rewrite expand_app. done.
Qed.

(** * The small and the out-of-range arguments *)



Lemma Factor_beyond s n : size s * size s < n → Factor s n = Ok [].
Proof.
  intros H. unfold Factor. destruct (Z.ltb_spec (size s * size s) n); [done|lia].
Qed.

Lemma FactorUnique_beyond s n : size s * size s < n → FactorUnique s n = Ok [].
Proof.
  intros H. unfold FactorUnique.
  destruct (Z.ltb_spec (size s * size s) n); [done|lia].
Qed.

Lemma DivisorCount_beyond s n : size s * size s < n → DivisorCount s n = Ok 0.
Proof.
  intros H. unfold DivisorCount.
  destruct (Z.ltb_spec (size s * size s) n); [done|lia].
Qed.

Lemma SquareFree_beyond s n : size s * size s < n → SquareFree s n = Ok false.
Proof.
  intros H. unfold SquareFree.
  destruct (Z.ltb_spec (size s * size s) n); [done|lia].
Qed.

(** * Every query returns *)

Lemma shiftr_1_lt n : 1 < n → Z.shiftr n 1 < n.
Proof.
  intros H. rewrite Z.shiftr_div_pow2 by lia. apply Z.div_lt; lia.
Qed.

Lemma Factor_twos_total (fuel : nat) :
  ∀ n res, (0 < fuel)%nat → n < Z.of_nat fuel →
    ∃ n' l, Factor_twos fuel n res = Ok (n', res ++ l) ∧ (l = [] → n' = n).
Proof.
  induction fuel as [|fuel IH]; intros n res Hf Hfuel; [lia|].
  simpl. destruct (Z.ltb_spec 1 n) as [Hn|Hn]; simpl.
  - destruct (Z.rem n 2 =? 0).
    + pose proof (shiftr_1_lt n Hn).
      destruct (IH (Z.shiftr n 1) (res ++ [2])) as (n' & l & E & _); [lia|lia|].
      exists n', ([2] ++ l). rewrite E, <- app_assoc. split; [done|done].
    + exists n, []. now rewrite app_nil_r.
  - exists n, []. now rewrite app_nil_r.
Qed.

Lemma Factor_strip_total (fuel : nat) :
  ∀ d n res, 1 < d → (0 < fuel)%nat → n < Z.of_nat fuel →
    ∃ n' l, Factor_strip fuel d n res = Ok (n', res ++ l) ∧ (l = [] → n' = n).
Proof.
  induction fuel as [|fuel IH]; intros d n res Hd Hf Hfuel; [lia|].
  simpl. destruct (Z.ltb_spec 1 n) as [Hn|Hn]; simpl.
  - destruct (Z.rem n d =? 0).
    + pose proof (Z.quot_lt n d ltac:(lia) Hd).
      destruct (IH d (Z.quot n d) (res ++ [d])) as (n' & l & E & _);
        [done|lia|lia|].
      exists n', ([d] ++ l). rewrite E, <- app_assoc. split; [done|done].
    + exists n, []. now rewrite app_nil_r.
  - exists n, []. now rewrite app_nil_r.
Qed.

Lemma fuel_for_enough n : (0 < fuel_for n)%nat ∧ n < Z.of_nat (fuel_for n).
Proof. fuel_ok. Qed.

Lemma ready_Prime s d :
  ready s → 3 <= d < size s → Prime s d = Ok (bool_decide (Z.prime d)).
Proof.
  intros [H|H] Hd; [lia|]. apply Prime_spec; [done|nia].
Qed.

Lemma Factor_loop_total (fuel : nat) :
  ∀ s d n res, ready s → 3 <= d →
    (0 < fuel)%nat → size s + 1 < d + Z.of_nat fuel →
    ∃ n' l, Factor_loop fuel s d n res = Ok (n', res ++ l) ∧ (l = [] → n' = n).
Proof.
  induction fuel as [|fuel IH]; intros s d n res Hs Hd Hf Hfuel; [lia|].
  simpl. destruct (Z.ltb_spec d (size s)) as [Hds|Hds]; simpl.
  2:{ exists n, []. now rewrite app_nil_r. }
  destruct (d * d <=? n).
  2:{ exists n, []. now rewrite app_nil_r. }
  rewrite ready_Prime by (done || lia). simpl.
  destruct (bool_decide (Z.prime d)).
  - destruct (Factor_strip_total (fuel_for n) d n res) as (n1 & l1 & -> & H1);
      [lia|apply fuel_for_enough|apply fuel_for_enough|].
    simpl. destruct (IH s (d + 2) n1 (res ++ l1)) as (n2 & l2 & -> & H2);
      [done|lia|lia|lia|].
    exists n2, (l1 ++ l2). rewrite app_assoc. split; [done|].
    intros [-> ->]%app_eq_nil. rewrite H2, H1; done.
  - simpl. apply IH; [done|lia|lia|lia].
Qed.

Lemma Factor_total s n :
  ready s → ∃ l, Factor s n = Ok l ∧ (n <= size s * size s → l ≠ []).
Proof.
  intros Hs. unfold Factor.
  destruct (Z.ltb_spec (size s * size s) n) as [H|H].
  { exists []. split; [done|lia]. }
  destruct (Z.leb_spec n 3) as [H3|H3].
  { exists [n]. split; [done|done]. }
  destruct (Factor_twos_total (fuel_for n) n []) as (n1 & l1 & -> & H1);
    [apply fuel_for_enough|apply fuel_for_enough|].
  simpl.
  destruct (Factor_loop_total (fuel_for (size s)) s 3 n1 l1) as (n2 & l2 & -> & H2);
    [done|lia|fuel_ok|fuel_ok|].
  simpl. destruct (Z.ltb_spec 1 n2) as [Hn2|Hn2].
  - eexists. split; [done|]. intros _ [_ ?]%app_eq_nil. done.
  - eexists. split; [done|]. intros _ [-> ->]%app_eq_nil.
    rewrite H2, H1 in Hn2 by done. lia.
Qed.

Lemma FactorUnique_total s n : ready s → ∃ us, FactorUnique s n = Ok us.
Proof.
  intros Hs. destruct (Factor_total s n Hs) as (l & E & _).
  rewrite <- Factor_FactorUnique in E.
  destruct (FactorUnique s n) as [us|e]; [eauto|discriminate].
Qed.

Lemma count_twos_total n : ∃ n' c, count_twos (fuel_for n) n 0 = Ok (n', c).
Proof.
  destruct (Factor_twos_total (fuel_for n) n []) as (n' & l & E & _);
    [apply fuel_for_enough|apply fuel_for_enough|].
  pose proof (twos_lockstep (fuel_for n) n 0 []) as H.
  destruct (count_twos (fuel_for n) n 0) as [[n1 c]|e]; [eauto|congruence].
Qed.

Lemma count_strip_total d n :
  1 < d → ∃ n' c, count_strip (fuel_for n) d n 0 = Ok (n', c).
Proof.
  intros Hd.
  destruct (Factor_strip_total (fuel_for n) d n []) as (n' & l & E & _);
    [done|apply fuel_for_enough|apply fuel_for_enough|].
  pose proof (strip_lockstep (fuel_for n) d n 0 []) as H.
  destruct (count_strip (fuel_for n) d n 0) as [[n1 c]|e]; [eauto|congruence].
Qed.

Lemma DivisorCount_loop_total (fuel : nat) :
  ∀ s d n m, ready s → 3 <= d →
    (0 < fuel)%nat → size s + 1 < d + Z.of_nat fuel →
    ∃ n' m', DivisorCount_loop fuel s d n m = Ok (n', m').
Proof.
  induction fuel as [|fuel IH]; intros s d n m Hs Hd Hf Hfuel; [lia|].
  simpl. destruct (Z.ltb_spec d (size s)) as [Hds|Hds]; simpl; [|eauto].
  destruct (d * d <=? n); [|eauto].
  rewrite ready_Prime by (done || lia). simpl.
  destruct (bool_decide (Z.prime d) && ((1 <? n) && (Z.rem n d =? 0))).
  - destruct (count_strip_total d n) as (n1 & c & ->); [lia|]. simpl.
    apply IH; [done|lia|lia|lia].
  - simpl. apply IH; [done|lia|lia|lia].
Qed.

Lemma DivisorCount_total s n : ready s → ∃ m, DivisorCount s n = Ok m.
Proof.
  intros Hs. unfold DivisorCount.
  destruct (size s * size s <? n); [eauto|].
  destruct (n =? 1); [eauto|].
  assert (∃ n1 m1, (if (1 <? n) && (Z.rem n 2 =? 0)
                    then '(n1, cnt) ← count_twos (fuel_for n) n 0;
                         Ok (n1, 1 * (cnt + 1))
                    else Ok (n, 1)) = Ok (n1, m1)) as (n1 & m1 & ->).
  { destruct ((1 <? n) && (Z.rem n 2 =? 0)); [|eauto].
    destruct (count_twos_total n) as (n1 & c & ->). simpl. eauto. }
  simpl.
  destruct (DivisorCount_loop_total (fuel_for (size s)) s 3 n1 m1)
    as (n2 & m2 & ->); [done|lia|fuel_ok|fuel_ok|].
  simpl. eauto.
Qed.

Lemma SquareFree_loop_total (fuel : nat) :
  ∀ (f : list Z) i, 0 <= i →
    (0 < fuel)%nat → Z.of_nat (length f) <= i + Z.of_nat fuel →
    ∃ b, SquareFree_loop fuel f i = Ok b.
Proof.
  induction fuel as [|fuel IH]; intros f i Hi Hf Hfuel; [lia|].
  simpl. destruct (Z.ltb_spec i (Z.of_nat (length f) - 1)) as [H|H]; [|eauto].
  destruct (index_Ok f i) as (a & -> & _); [lia|].
  destruct (index_Ok f (i + 1)) as (b & -> & _); [lia|].
  simpl. destruct (a =? b); [eauto|]. apply IH; lia.
Qed.

Lemma SquareFree_total s n : ready s → ∃ b, SquareFree s n = Ok b.
Proof.
  intros Hs. unfold SquareFree.
  destruct (size s * size s <? n); [eauto|].
  destruct (Factor_total s n Hs) as (l & -> & _). cbn [mbind result_bind].
  apply SquareFree_loop_total; lia.
Qed.

Lemma NthPrime_loop_total (fuel : nat) :
  ∀ s n value cnt, sieved s → 3 <= value →
    (0 < fuel)%nat → size s + 1 < value + Z.of_nat fuel →
    ∃ p, NthPrime_loop fuel s n value cnt = Ok p.
Proof.
  induction fuel as [|fuel IH]; intros s n value cnt Hs Hv Hf Hfuel; [lia|].
  simpl. destruct (Z.leb_spec value (size s)) as [Hvs|Hvs]; [|eauto].
  rewrite Prime_spec by (done || nia). simpl.
  destruct (bool_decide (Z.prime value)).
  - destruct (cnt + 1 =? n); [eauto|]. apply IH; [done|lia|lia|lia].
  - apply IH; [done|lia|lia|lia].
Qed.

Lemma NthPrime_total s n : sieved s → ∃ p, NthPrime s n = Ok p.
Proof.
  intros Hs. unfold NthPrime. destruct (n =? 1); [eauto|].
  assert (0 <= size s) by apply Hs.
  apply NthPrime_loop_total; [done|lia|fuel_ok|fuel_ok].
Qed.

Lemma Prime_total s n : sieved s → ∃ b, Prime s n = Ok b.
Proof.
  intros Hs. destruct (Z_lt_le_dec (size s * size s) n).
  - rewrite Prime_beyond by done. eauto.
  - rewrite Prime_spec by done. eauto.
Qed.

(** * [New] on a negative size *)

Lemma New_negative sz s :
  sz < 0 → New sz = Ok s →
  s = mkSieve sz 0 (replicate (Z.to_nat (1 + Z.quot (sz + 7) 8)) 0).
Proof.
  intros Hsz. unfold New, make. change (sz + wordBits - 1) with (sz + 8 - 1).
  change wordBits with 8. replace (sz + 8 - 1) with (sz + 7) by lia.
  destruct (1 + Z.quot (sz + 7) 8 <? 0); [discriminate|].
  simpl. rewrite fuel_for_S. simpl.
  destruct (Z.leb_spec (3 * 3) sz); [lia|]. now intros [= <-].
Qed.

Lemma New_ready sz s : New sz = Ok s → size s = sz ∧ ready s.
Proof.
  intros E. destruct (Z_lt_le_dec sz 0) as [H|H].
  - apply New_negative in E as ->; [|done]. simpl. split; [done|]. left.
    simpl. lia.
  - destruct (New_spec sz H) as (s' & E' & Hs & _ & _ & Hsv).
    rewrite E in E'. injection E' as <-. split; [done|]. now right.
Qed.

(** * The second sieve computes [pi] *)

Lemma member_empty i : member ∅ i = false.
Proof. unfold member. now rewrite lookup_empty. Qed.

Lemma member_insert X j i :
  0 < i → 0 < j →
  member (<[Z.to_pos j := ()]> X) i = (i =? j) || member X i.
Proof.
  intros Hi Hj. unfold member. destruct (Z.eqb_spec i j) as [->|Hne].
  - now rewrite lookup_insert_eq.
  - rewrite lookup_insert_ne; [done|]. intros E. apply Hne.
    apply Z2Pos.inj in E; lia.
Qed.

Lemma fast_strike_spec (fuel : nat) :
  ∀ X hi i j, 1 <= i → 0 < j →
    (0 < fuel)%nat → hi + 1 < j + Z.of_nat fuel →
    ∀ m, 0 < m →
         member (fast_strike fuel X hi i j) m = true ↔
         member X m = true ∨
         ∃ t, 0 <= t ∧ j + t * (i + i) <= hi ∧ m = j + t * (i + i).
Proof.
  induction fuel as [|fuel IH]; intros X hi i j Hi Hj Hf Hfuel m Hm; [lia|].
  simpl. destruct (Z.leb_spec j hi) as [Hjh|Hjh].
  - rewrite IH by lia. rewrite member_insert, orb_true_iff, Z.eqb_eq by lia.
    split.
    + intros [[->|H]|(t & Ht & Hle & ->)].
      * right. exists 0. split; [lia|]. split; lia.
      * now left.
      * right. exists (t + 1). split; [lia|]. split; lia.
    + intros [H|(t & Ht & Hle & ->)]; [left; now right|].
      destruct (Z.eq_dec t 0) as [->|Hne].
      * left; left. lia.
      * right. exists (t - 1). split; [lia|]. split; lia.
  - split; [now left|]. intros [H|(t & Ht & Hle & ->)]; [done|]. nia.
Qed.

Lemma fast_loop_spec (fuel : nat) :
  ∀ inner X hi i, 3 <= i → Z.odd i = true →
    struck_upto (member X) hi i →
    (0 < fuel)%nat → hi + 1 < i + Z.of_nat fuel → hi < Z.of_nat inner →
    ∀ m, 3 <= m <= hi → Z.odd m = true →
         member (fast_loop fuel inner X hi i) m = negb (bool_decide (Z.prime m)).
Proof.
  induction fuel as [|fuel IH]; intros inner X hi i Hi Ho Hst Hf Hfuel Hin; [lia|].
  simpl. destruct (Z.leb_spec (i * i) hi) as [Hii|Hii].
  - assert (i <= hi) as Hih by nia.
    apply IH; [lia|now rewrite odd_add_2| |lia|lia|done].
    destruct (member X i) eqn:Hmi.
    + apply struck_upto_skip; [lia|done|done|done].
    + apply (struck_upto_strike (member X)); [lia|done|done|].
      intros m Hm Hom. rewrite fast_strike_spec by lia.
      split; (intros [H|(t & Ht & H)]; [now left|right; exists t]).
      * split; [done|]. apply H.
      * subst m. split; [done|]. split; [lia|done].
  - now apply (struck_upto_done _ _ i).
Qed.

Lemma fast_count_spec (fuel : nat) :
  ∀ X hi i acc, 3 <= i → Z.odd i = true →
    (∀ m, 3 <= m <= hi → Z.odd m = true →
          member X m = negb (bool_decide (Z.prime m))) →
    (0 < fuel)%nat → hi + 1 < i + Z.of_nat fuel →
    fast_count fuel X hi i acc =
    acc + Z.of_nat (length (primes_between i hi)).
Proof.
  induction fuel as [|fuel IH]; intros X hi i acc Hi Ho HX Hf Hfuel; [lia|].
  simpl. destruct (Z.leb_spec i hi) as [Hih|Hih].
  - rewrite IH; [|lia|now rewrite odd_add_2|done|lia|lia].
    rewrite (primes_between_odd i) by done. rewrite HX by (done || lia).
    destruct (bool_decide (Z.prime i)); cbn [negb app length]; lia.
  - rewrite primes_between_nil by lia. simpl. lia.
Qed.

Lemma pi_fast_spec x : pi_fast x = pi x.
Proof.
  unfold pi_fast. destruct (Z.ltb_spec x 2) as [H|H].
  { now rewrite pi_small. }
  rewrite pi_odd_primes by done.
  apply fast_count_spec; [lia|done| |fuel_ok|fuel_ok].
  apply fast_loop_spec;
    [lia|done| |fuel_ok|fuel_ok|fuel_ok].
  intros m Hm Ho. rewrite member_empty. split; [done|]. lia.
Qed.

(** * [Factor] away from the square of a prime size *)











(** * [SquareFree] away from the square of a prime size *)








(** * [DivisorCount] away from the square of a prime size *)

(** ** The divisors of [p^k * c] *)












(** ** The loops of [DivisorCount] *)






Lemma pi_at x v : pi_fast x = v → pi x = v.
Proof. intros <-. symmetry. apply pi_fast_spec. Qed.

Lemma pi_10 : pi 10 = 4.
Proof. apply pi_at. vm_compute. reflexivity. Qed.
Lemma pi_100 : pi 100 = 25.
Proof. apply pi_at. vm_compute. reflexivity. Qed.
Lemma pi_1000 : pi 1000 = 168.
Proof. apply pi_at. vm_compute. reflexivity. Qed.
Lemma pi_10000 : pi 10000 = 1229.
Proof. apply pi_at. vm_compute. reflexivity. Qed.
Lemma pi_100000 : pi 100000 = 9592.
Proof. apply pi_at. vm_compute. reflexivity. Qed.
Lemma pi_1000000 : pi 1000000 = 78498.
Proof. apply pi_at. vm_compute. reflexivity. Qed.


(** * The properties of the package *)





(** C3. On a sieve built by [New size] with [size >= 0], [Count] returns
    the number of primes up to [size]; that number is 0 below 2 and counts
    the prime 2 from 2 on; a second call returns the same value; and the
    function takes the reference values at the powers of ten up to a
    million. *)
Theorem Count_is_pi (sz : Z) :
  0 <= sz →
  ∃ s s1 s2, New sz = Ok s ∧
    Count s = Ok (pi sz, s1) ∧ Count s1 = Ok (pi sz, s2) ∧
    (sz < 2 → pi sz = 0) ∧
    (2 <= sz → pi sz = 1 + Z.of_nat (length (primes_between 3 sz))) ∧
    pi 10 = 4 ∧ pi 100 = 25 ∧ pi 1000 = 168 ∧ pi 10000 = 1229 ∧
    pi 100000 = 9592 ∧ pi 1000000 = 78498.
Proof.
  intros Hsz. destruct (New_spec sz Hsz) as (s & E & Hs & Hc & _ & Hsv).
  exists s, (set_count s (pi sz)), (set_count s (pi sz)). subst sz.
  split; [done|]. split; [now apply Count_spec|].
  split; [now apply Count_again|].
  split; [apply pi_small|]. split; [apply pi_odd_primes|].
  pose proof pi_10. pose proof pi_100. pose proof pi_1000.
  pose proof pi_10000. pose proof pi_100000. pose proof pi_1000000.
  tauto.
Qed.

Lemma Count_is_pi_witness :
  0 <= 10 ∧
  ∃ s s1 s2, New 10 = Ok s ∧
    Count s = Ok (pi 10, s1) ∧ Count s1 = Ok (pi 10, s2) ∧
    (10 < 2 → pi 10 = 0) ∧
    (2 <= 10 → pi 10 = 1 + Z.of_nat (length (primes_between 3 10))) ∧
    pi 10 = 4 ∧ pi 100 = 25 ∧ pi 1000 = 168 ∧ pi 10000 = 1229 ∧
    pi 100000 = 9592 ∧ pi 1000000 = 78498.
Proof. split; [lia|]. apply (Count_is_pi 10). lia. Defined.

(** C4. On every sieve and for every integer [n], expanding each pair
    [{p, k}] of [FactorUnique n] into [k] copies of [p] and concatenating
    gives the sequence of [Factor n]; a panic of one is the same panic of
    the other, and on a sieve built by [New] both return. *)
Theorem FactorUnique_expands_to_Factor (s : Sieve) (n : Z) :
  expand <$> FactorUnique s n = Factor s n ∧
  (∀ sz, New sz = Ok s →
         ∃ us, FactorUnique s n = Ok us ∧ Factor s n = Ok (expand us)).
Proof.
  split; [apply Factor_FactorUnique|]. intros sz [_ Hr]%New_ready.
  destruct (FactorUnique_total s n Hr) as (us & E). exists us.
  split; [done|]. now rewrite <- Factor_FactorUnique, E.
Qed.

Lemma FactorUnique_expands_to_Factor_witness :
  ∃ s, New 10 = Ok s ∧
       ∃ us, FactorUnique s 12 = Ok us ∧ Factor s 12 = Ok (expand us).
Proof.
  eexists. split; [reflexivity|].
  apply (proj2 (FactorUnique_expands_to_Factor _ 12) 10). reflexivity.
Defined.





(** C7. On a sieve built by [New size] with [size >= 0] and for [n >= 1]:
    [NthPrime 1] is 2, on any sieve; for [n >= 2], if [[3, size]] holds at
    least [n - 1] primes then [NthPrime n] is the [n]-th prime, and
    otherwise it is 0. *)
Theorem NthPrime_is_nth_prime (sz n : Z) :
  0 <= sz → 1 <= n →
  ∃ s, New sz = Ok s ∧
       (∀ s', NthPrime s' 1 = Ok 2) ∧ nth_prime 1 2 ∧
       (2 <= n →
        (n - 1 <= Z.of_nat (length (primes_between 3 sz)) →
         ∃ p, NthPrime s n = Ok p ∧ nth_prime n p ∧ 3 <= p <= sz) ∧
        (Z.of_nat (length (primes_between 3 sz)) < n - 1 →
         NthPrime s n = Ok 0)).
Proof.
  intros Hsz Hn. destruct (New_spec sz Hsz) as (s & E & Hs & _ & _ & Hsv).
  exists s. split; [done|]. split; [done|]. split.
  { split; [apply Z.prime_2|]. rewrite pi_odd_primes by lia.
    now rewrite primes_between_nil by lia. }
  intros Hn2. unfold NthPrime. destruct (Z.eqb_spec n 1); [lia|].
  destruct (NthPrime_loop_spec (fuel_for (size s)) s n 3 1)
    as [(p & Ep & Hp & Hnth)|[E0 Hpi]];
    [done|lia|done|rewrite pi_odd_primes by lia; now rewrite primes_between_nil by lia
    |lia|fuel_ok|fuel_ok| |].
  - assert (n <= pi sz) as Hle.
    { destruct Hnth as [_ <-]. apply pi_mono. lia. }
    rewrite pi_odd_primes in Hle by lia. split; [|lia].
    intros _. exists p. split; [done|]. split; [done|lia].
  - rewrite Hs in Hpi. split; [|done]. intros Hle.
    destruct (Z_lt_le_dec sz 2).
    + rewrite primes_between_nil in Hle by lia. simpl in Hle. lia.
    + rewrite pi_odd_primes in Hpi by lia. lia.
Qed.

Lemma NthPrime_is_nth_prime_witness :
  0 <= 30 ∧ 1 <= 10 ∧
  ∃ s, New 30 = Ok s ∧
       (∀ s', NthPrime s' 1 = Ok 2) ∧ nth_prime 1 2 ∧
       (2 <= 10 →
        (10 - 1 <= Z.of_nat (length (primes_between 3 30)) →
         ∃ p, NthPrime s 10 = Ok p ∧ nth_prime 10 p ∧ 3 <= p <= 30) ∧
        (Z.of_nat (length (primes_between 3 30)) < 10 - 1 →
         NthPrime s 10 = Ok 0)).
Proof. split; [lia|]. split; [lia|]. apply (NthPrime_is_nth_prime 30 10); lia. Defined.

Lemma alloc_length_negative sz :
  sz <= -23 ↔ 1 + Z.quot (sz + wordBits - 1) wordBits < 0.
Proof. change wordBits with 8. Z.to_euclidean_division_equations. lia. Qed.

Lemma New_make_negative sz : sz <= -23 → New sz = Panic NegativeLen.
Proof.
  intros H%alloc_length_negative. unfold New, make.
  destruct (Z.ltb_spec (1 + Z.quot (sz + wordBits - 1) wordBits) 0); [done|lia].
Qed.

Lemma New_small_negative sz :
  -23 < sz < 0 →
  ∃ s, New sz = Ok s ∧ (length (table s) <= 1)%nat.
Proof.
  intros H. unfold New, make.
  assert (0 <= 1 + Z.quot (sz + wordBits - 1) wordBits <= 1) as Hlen.
  { change wordBits with 8. Z.to_euclidean_division_equations. lia. }
  destruct (Z.ltb_spec (1 + Z.quot (sz + wordBits - 1) wordBits) 0); [lia|].
  cbn [mbind result_bind]. rewrite fuel_for_S. cbn [New_loop size].
  destruct (Z.leb_spec (3 * 3) sz); [lia|].
  eexists. split; [done|]. cbn [table]. rewrite length_replicate. lia.
Qed.

(** C8, as stated, fails: on the sieve of size 1, the number 2 lies
    beyond [size*size] and [Prime(2)] is true. *)
Lemma Prime_2_beyond_range :
  ¬ (∀ sz s n, New sz = Ok s → sz * sz < n →
       Prime s n = Ok false ∧ Factor s n = Ok [] ∧ FactorUnique s n = Ok [] ∧
       DivisorCount s n = Ok 0 ∧ SquareFree s n = Ok false).
Proof.
  intros H.
  destruct (H 1 (mkSieve 1 0 [0; 0]) 2 eq_refl ltac:(lia)) as [H2 _].
  discriminate H2.
Qed.

(** C8, amended. On a sieve built by [New size] and for [n > size*size]:
    [Prime n] is false except for [n = 2] (which is beyond the range only
    when [size*size < 2]), where it is true; [Factor n] and
    [FactorUnique n] are empty, [DivisorCount n] is 0 and [SquareFree n]
    is false; and [n = size*size] is not rejected: [Factor] and
    [FactorUnique] return a non-empty sequence for it. *)
Theorem out_of_domain_sentinels (sz : Z) (s : Sieve) (n : Z) :
  New sz = Ok s → sz * sz < n →
  Prime s n = Ok (bool_decide (n = 2)) ∧ (n = 2 → -1 <= sz <= 1) ∧
  Factor s n = Ok [] ∧ FactorUnique s n = Ok [] ∧
  DivisorCount s n = Ok 0 ∧ SquareFree s n = Ok false ∧
  (∃ l, Factor s (sz * sz) = Ok l ∧ l ≠ []) ∧
  (∃ us, FactorUnique s (sz * sz) = Ok us ∧ us ≠ []).
Proof.
  intros E Hn. destruct (New_ready sz s E) as [Hs Hr]. subst sz.
  split; [now apply Prime_beyond|]. split; [nia|].
  split; [now apply Factor_beyond|]. split; [now apply FactorUnique_beyond|].
  split; [now apply DivisorCount_beyond|]. split; [now apply SquareFree_beyond|].
  destruct (Factor_total s (size s * size s) Hr) as (l & El & Hl).
  split; [exists l; split; [done|apply Hl; lia]|].
  destruct (FactorUnique_total s (size s * size s) Hr) as (us & Eus).
  exists us. split; [done|]. intros ->.
  rewrite <- Factor_FactorUnique, Eus in El. injection El as <-.
  apply Hl; [lia|done].
Qed.

Lemma out_of_domain_sentinels_witness :
  New 1 = Ok (mkSieve 1 0 [0; 0]) ∧ 1 * 1 < 2 ∧
  Prime (mkSieve 1 0 [0; 0]) 2 = Ok (bool_decide (2 = 2)) ∧
  (2 = 2 → -1 <= 1 <= 1) ∧
  Factor (mkSieve 1 0 [0; 0]) 2 = Ok [] ∧
  FactorUnique (mkSieve 1 0 [0; 0]) 2 = Ok [] ∧
  DivisorCount (mkSieve 1 0 [0; 0]) 2 = Ok 0 ∧
  SquareFree (mkSieve 1 0 [0; 0]) 2 = Ok false ∧
  (∃ l, Factor (mkSieve 1 0 [0; 0]) (1 * 1) = Ok l ∧ l ≠ []) ∧
  (∃ us, FactorUnique (mkSieve 1 0 [0; 0]) (1 * 1) = Ok us ∧ us ≠ []).
Proof.
  split; [reflexivity|]. split; [lia|].
  apply (out_of_domain_sentinels 1 (mkSieve 1 0 [0; 0]) 2); [reflexivity|lia].
Defined.

(** C9, as stated, fails in its last part: a negative size need not make
    the allocation length negative; [New(-1)] allocates one word. *)
Lemma negative_size_allocates :
  ¬ (∀ sz, sz < 0 → 1 + Z.quot (sz + wordBits - 1) wordBits < 0) ∧
  New (-1) = Ok (mkSieve (-1) 0 [0]).
Proof.
  split; [|reflexivity]. intros H. specialize (H (-1) ltac:(lia)).
  vm_compute in H. discriminate H.
Qed.

(** C9, amended. For [size >= 0], [New size] allocates
    [1 + (size + 7) / 8] words and returns; [bit] and [setBit] at every
    [i] of [[3, size]] stay within the table; and [Count] and, for every
    argument, [Prime], [Factor], [FactorUnique], [DivisorCount],
    [SquareFree] and [NthPrime] return without an out-of-bounds failure.
    The allocation length is negative exactly for [size <= -23]; for
    [-22 <= size <= -1] [New] returns a table of at most one word, and on
    such a sieve a query can index out of range ([Prime(11)] on
    [New(-16)]). *)
Theorem table_access_in_bounds (sz : Z) :
  (0 <= sz →
   ∃ s, New sz = Ok s ∧
        Z.of_nat (length (table s)) = 1 + (sz + 7) / 8 ∧
        (∀ i, 3 <= i <= sz →
              (∃ b, bit s i = Ok b) ∧ (∃ s', setBit s i = Ok s')) ∧
        (∃ c s', Count s = Ok (c, s')) ∧
        ∀ n, (∃ b, Prime s n = Ok b) ∧ (∃ l, Factor s n = Ok l) ∧
             (∃ us, FactorUnique s n = Ok us) ∧
             (∃ m, DivisorCount s n = Ok m) ∧
             (∃ b, SquareFree s n = Ok b) ∧ (∃ p, NthPrime s n = Ok p)) ∧
  (sz <= -23 ↔ 1 + Z.quot (sz + wordBits - 1) wordBits < 0) ∧
  (sz <= -23 → New sz = Panic NegativeLen) ∧
  (-23 < sz < 0 → ∃ s, New sz = Ok s ∧ (length (table s) <= 1)%nat) ∧
  (∃ s, New (-16) = Ok s ∧ Prime s 11 = Panic IndexOutOfRange).
Proof.
  split; [|split; [|split; [|split]]].
  - intros Hsz. destruct (New_spec sz Hsz) as (s & E & Hs & Hc & Hlen & Hsv).
    exists s. split; [done|]. split; [done|]. subst sz.
    assert (ready s) as Hr by now right.
    split; [|split].
    + intros i Hi.
      pose proof (covers_index s i (proj1 Hsv) ltac:(lia)) as Hidx.
      split.
      * rewrite bit_marked by done. eauto.
      * destruct (setBit_marked s i Hidx) as (s' & Es & _). eauto.
    + rewrite Count_spec by done. eauto.
    + intros n. split; [now apply Prime_total|].
      split; [destruct (Factor_total s n Hr) as (l & El & _); eauto|].
      split; [now apply FactorUnique_total|].
      split; [now apply DivisorCount_total|].
      split; [now apply SquareFree_total|now apply NthPrime_total].
  - apply alloc_length_negative.
  - apply New_make_negative.
  - apply New_small_negative.
  - eexists. split; reflexivity.
Qed.

Lemma table_access_in_bounds_witness :
  (0 <= 100 ∧
   ∃ s, New 100 = Ok s ∧
        Z.of_nat (length (table s)) = 1 + (100 + 7) / 8 ∧
        (∀ i, 3 <= i <= 100 →
              (∃ b, bit s i = Ok b) ∧ (∃ s', setBit s i = Ok s')) ∧
        (∃ c s', Count s = Ok (c, s')) ∧
        ∀ n, (∃ b, Prime s n = Ok b) ∧ (∃ l, Factor s n = Ok l) ∧
             (∃ us, FactorUnique s n = Ok us) ∧
             (∃ m, DivisorCount s n = Ok m) ∧
             (∃ b, SquareFree s n = Ok b) ∧ (∃ p, NthPrime s n = Ok p)) ∧
  (-30 <= -23 ∧ New (-30) = Panic NegativeLen) ∧
  (-23 < -5 < 0 ∧ ∃ s, New (-5) = Ok s ∧ (length (table s) <= 1)%nat).
Proof.
  split; [split; [lia|apply (proj1 (table_access_in_bounds 100)); lia]|].
  split; [split; [lia|apply (table_access_in_bounds (-30)); lia]|].
  split; [lia|apply (table_access_in_bounds (-5)); lia].
Defined.



(** Closed arithmetic side conditions, by evaluation. *)
Ltac concrete := vm_compute; intuition discriminate.

(** * Further properties: the packed table *)

Lemma index_Panic (t : list Z) k :
  ¬ (0 <= k < Z.of_nat (length t)) → index t k = Panic IndexOutOfRange.
Proof.
  intros H. unfold index. destruct (Z.ltb_spec k 0); [done|].
  destruct (t !! Z.to_nat k) as [w|] eqn:E; [|done].
  apply lookup_lt_Some in E. lia.
Qed.

Lemma shiftr_1 i : Z.shiftr i 1 = i / 2.
Proof. now rewrite Z.shiftr_div_pow2. Qed.

Lemma bit_unwritten s s' i :
  length (table s') = length (table s) →
  (0 <= i → marked (table s') i = marked (table s) i) →
  bit s' i = bit s i.
Proof.
  intros Hlen Hm.
  destruct (decide (0 <= i / 16 < Z.of_nat (length (table s)))) as [Hi|Hi].
  - rewrite !bit_marked by (rewrite ?Hlen; done). rewrite Hm; [done|].
    destruct (Z_lt_le_dec i 0) as [Hn|]; [|done].
    pose proof (Z.div_lt_upper_bound i 16 0 ltac:(lia) ltac:(lia)). lia.
  - unfold bit. rewrite !shiftr_4.
    rewrite !index_Panic by (rewrite ?Hlen; done). done.
Qed.

(** X1. Writing then reading: where the word of [j] exists, [setBit j]
    returns a sieve of the same size, count and table length in which
    [bit j] is 1 and the bit of every [i] with [i>>1 <> j>>1] is what it
    was; setting the same bit again changes nothing. *)
Theorem setBit_then_bit (s : Sieve) (j : Z) :
  0 <= Z.shiftr j 4 < Z.of_nat (length (table s)) →
  ∃ s', setBit s j = Ok s' ∧
        size s' = size s ∧ count s' = count s ∧
        length (table s') = length (table s) ∧
        bit s' j = Ok 1 ∧
        (∀ i, Z.shiftr i 1 ≠ Z.shiftr j 1 → bit s' i = bit s i) ∧
        setBit s' j = Ok s'.
Proof.
  change 4 with (1 + wordBitsLog2). rewrite shiftr_4. intros Hj.
  assert (0 <= j) as Hj0.
  { destruct (Z_lt_le_dec j 0) as [Hn|]; [|done].
    pose proof (Z.div_lt_upper_bound j 16 0 ltac:(lia) ltac:(lia)). lia. }
  destruct (setBit_marked s j Hj) as (s' & E & Hsz & Hct & Hlen & Hm).
  exists s'. split; [done|]. split; [done|]. split; [done|]. split; [done|].
  split; [|split].
  - rewrite bit_marked by (rewrite Hlen; done). rewrite Hm by done.
    now rewrite Z.eqb_refl.
  - intros i Hne. rewrite !shiftr_1 in Hne. apply bit_unwritten; [done|].
    intros Hi. rewrite Hm by done.
    destruct (Z.eqb_spec (i / 2) (j / 2)); [done|done].
  - revert E. unfold setBit. rewrite !shiftr_4.
    destruct (index_Ok (table s) (j / 16) Hj) as (w & -> & Hw). simpl.
    intros [= <-]. simpl.
    destruct (index_Ok (<[Z.to_nat (j / 16) :=
                Z.lor w (to_word (Z.shiftl 1
                  (Z.land (Z.shiftr (to_uint j) 1) wordMask)))]> (table s))
                (j / 16)) as (w' & -> & Hw').
    { now rewrite length_insert. }
    simpl. rewrite list_lookup_insert_eq in Hw' by lia. injection Hw' as <-.
    rewrite list_insert_insert_eq. do 2 f_equal.
    rewrite <- Z.lor_assoc, Z.lor_diag. done.
Qed.

Lemma setBit_then_bit_witness :
  0 <= Z.shiftr 9 4 < Z.of_nat (length (table (mkSieve 20 0 [0; 0; 0]))) ∧
  ∃ s', setBit (mkSieve 20 0 [0; 0; 0]) 9 = Ok s' ∧
        size s' = size (mkSieve 20 0 [0; 0; 0]) ∧
        count s' = count (mkSieve 20 0 [0; 0; 0]) ∧
        length (table s') = length (table (mkSieve 20 0 [0; 0; 0])) ∧
        bit s' 9 = Ok 1 ∧
        (∀ i, Z.shiftr i 1 ≠ Z.shiftr 9 1 →
              bit s' i = bit (mkSieve 20 0 [0; 0; 0]) i) ∧
        setBit s' 9 = Ok s'.
Proof.
  split; [concrete|].
  apply (setBit_then_bit (mkSieve 20 0 [0; 0; 0]) 9). concrete.
Defined.

(** X2. The bounds of the table: where the word [index>>4] exists, [bit]
    returns 0 or 1 and [setBit] returns; anywhere else, also at a negative
    index, both panic with an index out of range. *)
Theorem bit_bounds (s : Sieve) (i : Z) :
  (0 <= Z.shiftr i 4 < Z.of_nat (length (table s)) →
   (bit s i = Ok 0 ∨ bit s i = Ok 1) ∧ ∃ s', setBit s i = Ok s') ∧
  (¬ (0 <= Z.shiftr i 4 < Z.of_nat (length (table s))) →
   bit s i = Panic IndexOutOfRange ∧ setBit s i = Panic IndexOutOfRange).
Proof.
  change 4 with (1 + wordBitsLog2). rewrite shiftr_4. split; intros Hi.
  - split.
    + rewrite bit_marked by done. destruct (marked (table s) i); auto.
    + destruct (setBit_marked s i Hi) as (s' & E & _). eauto.
  - unfold bit, setBit. rewrite !shiftr_4, !index_Panic by done. done.
Qed.

Lemma bit_bounds_witness :
  (0 <= Z.shiftr 33 4 < Z.of_nat (length (table (mkSieve 40 0 [0; 4; 0]))) ∧
   (bit (mkSieve 40 0 [0; 4; 0]) 33 = Ok 0 ∨
    bit (mkSieve 40 0 [0; 4; 0]) 33 = Ok 1) ∧
   ∃ s', setBit (mkSieve 40 0 [0; 4; 0]) 33 = Ok s') ∧
  (¬ (0 <= Z.shiftr 48 4 < Z.of_nat (length (table (mkSieve 40 0 [0; 4; 0])))) ∧
   bit (mkSieve 40 0 [0; 4; 0]) 48 = Panic IndexOutOfRange ∧
   setBit (mkSieve 40 0 [0; 4; 0]) 48 = Panic IndexOutOfRange) ∧
  (¬ (0 <= Z.shiftr (-1) 4 < Z.of_nat (length (table (mkSieve 40 0 [0; 4; 0])))) ∧
   bit (mkSieve 40 0 [0; 4; 0]) (-1) = Panic IndexOutOfRange ∧
   setBit (mkSieve 40 0 [0; 4; 0]) (-1) = Panic IndexOutOfRange).
Proof.
  split; [|split].
  - split; [concrete|].
    apply (proj1 (bit_bounds (mkSieve 40 0 [0; 4; 0]) 33)). concrete.
  - split; [concrete|].
    apply (proj2 (bit_bounds (mkSieve 40 0 [0; 4; 0]) 48)). concrete.
  - split; [concrete|].
    apply (proj2 (bit_bounds (mkSieve 40 0 [0; 4; 0]) (-1))). concrete.
Defined.

(** ** What [New] leaves in the table *)

Lemma lor_byte a b : 0 <= a < 256 → 0 <= b < 256 → 0 <= Z.lor a b < 256.
Proof.
  intros Ha Hb. assert (0 <= Z.lor a b) as H0 by (apply Z.lor_nonneg; lia).
  split; [done|].
  destruct (Z.eq_dec (Z.lor a b) 0) as [->|Hne]; [lia|].
  change 256 with (2 ^ 8). apply Z.log2_lt_pow2; [lia|].
  rewrite Z.log2_lor by lia.
  destruct (Z.eq_dec a 0) as [->|]; destruct (Z.eq_dec b 0) as [->|];
    cbn [Z.log2]; try lia.
  - apply Z.max_lub_lt; [simpl; lia|]. apply Z.log2_lt_pow2; lia.
  - apply Z.max_lub_lt; [|simpl; lia]. apply Z.log2_lt_pow2; lia.
  - apply Z.max_lub_lt; apply Z.log2_lt_pow2; lia.
Qed.

Lemma to_word_byte z : 0 <= to_word z < 256.
Proof. rewrite to_word_mod. apply Z.mod_pos_bound. lia. Qed.

Lemma setBit_tidy s j s' :
  setBit s j = Ok s' → j <= size s → tidy s → tidy s' ∧ size s' = size s.
Proof.
  unfold setBit. rewrite shiftr_4. intros (w & Hw & E)%bind_Ok Hj [Hb Hz].
  apply index_Ok_inv in Hw as [Hr Hw]. injection E as <-.
  split; [|done]. unfold tidy. cbn [table size]. split.
  - apply Forall_insert; [done|]. apply lor_byte; [|apply to_word_byte].
    rewrite Forall_forall in Hb. apply Hb. now apply list_elem_of_lookup_2 in Hw.
  - intros k v Hk Hv.
    assert (j / 16 <= size s / 16) by (apply Z.div_le_mono; lia).
    rewrite list_lookup_insert_ne in Hv by lia. eauto.
Qed.

Lemma New_strike_tidy (fuel : nat) :
  ∀ s i j s', New_strike fuel s i j = Ok s' → tidy s →
    tidy s' ∧ size s' = size s.
Proof.
  induction fuel as [|fuel IH]; intros s i j s'; simpl; [done|].
  destruct (Z.leb_spec j (size s)) as [Hj|Hj].
  - intros (s1 & E1 & E)%bind_Ok Ht.
    destruct (setBit_tidy s j s1 E1 Hj Ht) as [Ht1 Hs1].
    destruct (IH s1 i _ s' E Ht1) as [Ht' Hs']. split; [done|congruence].
  - intros [= <-] Ht. done.
Qed.

Lemma New_loop_tidy (fuel : nat) :
  ∀ s i s', New_loop fuel s i = Ok s' → tidy s → tidy s' ∧ size s' = size s.
Proof.
  induction fuel as [|fuel IH]; intros s i s'; simpl; [done|].
  destruct (i * i <=? size s).
  - intros (b & Eb & (s1 & E1 & E)%bind_Ok)%bind_Ok Ht.
    assert (tidy s1 ∧ size s1 = size s) as [Ht1 Hs1].
    { destruct (b =? 0).
      - now apply New_strike_tidy in E1.
      - injection E1 as <-. done. }
    destruct (IH s1 _ s' E Ht1) as [Ht' Hs']. split; [done|congruence].
  - intros [= <-] Ht. done.
Qed.

(** X3. The sieve that [New size] returns, for [size >= 0]: [Size] gives
    back [size], the count is not yet computed, the table has
    [1 + (size + 7) / 8] words, every word is within the range of [uint8],
    and every word beyond the index [size>>4] is still zero: the loops
    write one bit per odd number, so they use half of the words. *)
Theorem New_shape (sz : Z) :
  0 <= sz →
  ∃ s, New sz = Ok s ∧ Size s = sz ∧ count s = 0 ∧
       Z.of_nat (length (table s)) = 1 + (sz + 7) / 8 ∧
       Forall (λ w, 0 <= w < 256) (table s) ∧
       ∀ k w, Z.shiftr sz 4 < Z.of_nat k → table s !! k = Some w → w = 0.
Proof.
  intros Hsz. destruct (New_spec sz Hsz) as (s & E & Hs & Hc & Hlen & _).
  exists s. split; [done|]. split; [done|]. split; [done|]. split; [done|].
  revert E. unfold New, make. rewrite table_length by done.
  assert (0 <= (sz + 7) / 8) by (apply Z.div_pos; lia).
  destruct (Z.ltb_spec (1 + (sz + 7) / 8) 0); [lia|]. simpl.
  intros E. apply New_loop_tidy in E as [[Hb Hz] _].
  - split; [done|]. intros k w. rewrite Z.shiftr_div_pow2 by lia.
    rewrite <- Hs at 1. apply Hz.
  - split; simpl.
    + apply Forall_replicate. lia.
    + intros k w _ [-> _]%lookup_replicate. done.
Qed.

Lemma New_shape_witness :
  0 <= 100 ∧
  ∃ s, New 100 = Ok s ∧ Size s = 100 ∧ count s = 0 ∧
       Z.of_nat (length (table s)) = 1 + (100 + 7) / 8 ∧
       Forall (λ w, 0 <= w < 256) (table s) ∧
       ∀ k w, Z.shiftr 100 4 < Z.of_nat k → table s !! k = Some w → w = 0.
Proof. split; [lia|]. apply (New_shape 100). lia. Defined.

(** * Further properties: counting *)

Lemma filter_ext_in {A} (P Q : A → Prop) `{∀ x, Decision (P x)}
    `{∀ x, Decision (Q x)} (l : list A) :
  (∀ x, x ∈ l → P x ↔ Q x) → filter P l = filter Q l.
Proof.
  induction l as [|x l IH]; intros HPQ; [done|].
  rewrite !filter_cons.
  rewrite IH by (intros y Hy; apply HPQ; now right).
  destruct (decide (P x)) as [HP|HP], (decide (Q x)) as [HQ|HQ]; try done.
  - now apply HPQ in HP; [|left].
  - now apply HPQ in HQ; [|left].
Qed.

Lemma primes_from_0 x : primes_between 0 x = primes_between 2 x.
Proof.
  destruct (Z_lt_le_dec x 0); [now rewrite !primes_between_nil by lia|].
  rewrite primes_between_cons by lia.
  rewrite bool_decide_eq_false_2 by apply Z.not_prime_0. simpl.
  destruct (Z_lt_le_dec x 1); [now rewrite !primes_between_nil by lia|].
  rewrite primes_between_cons by lia.
  now rewrite bool_decide_eq_false_2 by apply Z.not_prime_1.
Qed.

Lemma Prime_trial_set_count (fuel : nat) :
  ∀ s c n root d,
    Prime_trial fuel (set_count s c) n root d = Prime_trial fuel s n root d.
Proof.
  induction fuel as [|fuel IH]; intros s c n root d; simpl; [done|].
  destruct (d <=? root); [|done].
  change (bit (set_count s c) d) with (bit s d).
  destruct (bit s d) as [b|e]; simpl; [|done].
  destruct ((b =? 0) && (Z.rem n d =? 0)); [done|]. apply IH.
Qed.

Lemma Prime_set_count s c n : Prime (set_count s c) n = Prime s n.
Proof.
  unfold Prime. change (size (set_count s c)) with (size s).
  change (bit (set_count s c) n) with (bit s n).
  repeat (match goal with |- context [if ?b then _ else _] => destruct b end;
          try done).
  destruct (Prime_root (fuel_for n) n 1) as [r|e]; simpl; [|done].
  destruct (r * r =? n); [done|]. apply Prime_trial_set_count.
Qed.

(** X4. [Count] and [Prime] agree, and [Count] does not disturb the
    queries: on a sieve built by [New size] with [size >= 0], [Count] is
    the number of [n] in [[0, size]] for which [Prime n] is true; the sieve
    it leaves has the same size and table, and [Prime] answers on it as
    before. *)
Theorem Count_counts_Prime (sz : Z) :
  0 <= sz →
  ∃ s c s', New sz = Ok s ∧ Count s = Ok (c, s') ∧
    c = Z.of_nat (length (filter (λ n, Prime s n = Ok true) (seqZ 0 (sz + 1)))) ∧
    size s' = size s ∧ table s' = table s ∧
    ∀ n, Prime s' n = Prime s n.
Proof.
  intros Hsz. destruct (New_spec sz Hsz) as (s & E & Hs & Hc & _ & Hsv).
  exists s, (pi sz), (set_count s (pi sz)). split; [done|]. subst sz.
  split; [now apply Count_spec|]. split.
  - rewrite (filter_ext_in _ Z.prime).
    + unfold pi. rewrite <- primes_from_0. unfold primes_between.
      now rewrite Z.sub_0_r.
    + intros n [Hn0 Hn]%elem_of_seqZ. rewrite Prime_spec by (done || nia).
      split.
      * intros [= H]. now apply bool_decide_eq_true_1 in H.
      * intros H. now rewrite bool_decide_eq_true_2.
  - split; [done|]. split; [done|]. intros n. apply Prime_set_count.
Qed.

Lemma Count_counts_Prime_witness :
  0 <= 30 ∧
  ∃ s c s', New 30 = Ok s ∧ Count s = Ok (c, s') ∧
    c = Z.of_nat (length (filter (λ n, Prime s n = Ok true) (seqZ 0 (30 + 1)))) ∧
    size s' = size s ∧ table s' = table s ∧
    ∀ n, Prime s' n = Prime s n.
Proof. split; [lia|]. apply (Count_counts_Prime 30). lia. Defined.

(** * Further properties: [NthPrime] *)

Lemma NthPrime_loop_past (fuel : nat) :
  ∀ s n value cnt, sieved s → 3 <= value → n <= cnt →
    (0 < fuel)%nat → size s + 1 < value + Z.of_nat fuel →
    NthPrime_loop fuel s n value cnt = Ok 0.
Proof.
  induction fuel as [|fuel IH]; intros s n value cnt Hs Hv Hn Hf Hfuel; [lia|].
  simpl. destruct (Z.leb_spec value (size s)) as [Hvs|Hvs]; [|done].
  rewrite Prime_spec by (done || nia). simpl.
  destruct (bool_decide (Z.prime value)).
  - destruct (Z.eqb_spec (cnt + 1) n); [lia|]. apply IH; [done|lia|lia|lia|lia].
  - apply IH; [done|lia|lia|lia|lia].
Qed.

Lemma NthPrime_cases s n :
  sieved s → 2 <= n →
  (∃ p, NthPrime s n = Ok p ∧ 3 <= p <= size s ∧ nth_prime n p) ∨
  (NthPrime s n = Ok 0 ∧ pi (size s) < n).
Proof.
  intros Hs Hn. assert (0 <= size s) by apply Hs.
  unfold NthPrime. destruct (Z.eqb_spec n 1); [lia|].
  apply NthPrime_loop_spec; [done|lia|done| |lia|fuel_ok|fuel_ok].
  rewrite pi_odd_primes by lia. now rewrite primes_between_nil by lia.
Qed.

(** X5. When [NthPrime] gives up: on a sieve built by [New size] with
    [size >= 0], for [n >= 2] the result is the sentinel 0 exactly when [n]
    exceeds [Count]; for [n <= 0] it is 0; for [n = 1] it is 2 even when
    the sieve holds no prime at all ([size < 2], where [Count] is 0). *)
Theorem NthPrime_sentinel (sz n : Z) :
  0 <= sz →
  ∃ s c s', New sz = Ok s ∧ Count s = Ok (c, s') ∧
    (2 <= n → (NthPrime s n = Ok 0 ↔ c < n)) ∧
    (n <= 0 → NthPrime s n = Ok 0) ∧
    (sz < 2 → c = 0 ∧ NthPrime s 1 = Ok 2).
Proof.
  intros Hsz. destruct (New_spec sz Hsz) as (s & E & Hs & Hc & _ & Hsv).
  exists s, (pi sz), (set_count s (pi sz)). split; [done|]. subst sz.
  split; [now apply Count_spec|]. split; [|split].
  - intros Hn.
    destruct (NthPrime_cases s n Hsv Hn) as [(p & -> & Hp & _ & Hpi)|[-> Hpi]].
    + split; [intros [= ->]; lia|].
      pose proof (pi_mono p (size s) ltac:(lia)). lia.
    + done.
  - intros Hn. unfold NthPrime. destruct (Z.eqb_spec n 1); [lia|].
    apply NthPrime_loop_past; [done|lia|lia|fuel_ok|fuel_ok].
  - intros H2. split; [now apply pi_small|done].
Qed.

Lemma NthPrime_sentinel_witness :
  0 <= 30 ∧
  ∃ s c s', New 30 = Ok s ∧ Count s = Ok (c, s') ∧
    (2 <= 11 → (NthPrime s 11 = Ok 0 ↔ c < 11)) ∧
    (11 <= 0 → NthPrime s 11 = Ok 0) ∧
    (30 < 2 → c = 0 ∧ NthPrime s 1 = Ok 2).
Proof. split; [lia|]. apply (NthPrime_sentinel 30 11). lia. Defined.

Lemma pi_lt_inv a b : pi a < pi b → a < b.
Proof.
  intros H. destruct (Z_lt_le_dec a b); [done|].
  pose proof (pi_mono b a ltac:(lia)). lia.
Qed.

(** X6. [NthPrime] against [Prime] and [Count]: on a sieve built by
    [New size] with [size >= 0], a result [p <> 0] of [NthPrime n] is at
    least 2, [Prime p] is true, every [NthPrime m] with [m < n] is smaller
    than [p], and the sieve of size [p] counts exactly [n] primes. *)
Theorem NthPrime_round_trip (sz n p : Z) :
  0 <= sz →
  ∃ s, New sz = Ok s ∧
    (NthPrime s n = Ok p → p ≠ 0 →
     2 <= p ∧ Prime s p = Ok true ∧
     (∀ m q, m < n → NthPrime s m = Ok q → q < p) ∧
     ∃ sp sp', New p = Ok sp ∧ Count sp = Ok (n, sp')).
Proof.
  intros Hsz. destruct (New_spec sz Hsz) as (s & E & Hs & Hc & _ & Hsv).
  exists s. split; [done|]. intros Ep Hp0.
  assert (∀ m, m <= 0 → NthPrime s m = Ok 0) as Hneg.
  { intros m Hm. unfold NthPrime. destruct (Z.eqb_spec m 1); [lia|].
    apply NthPrime_loop_past; [done|lia|lia|fuel_ok|fuel_ok]. }
  assert (pi 2 = 1) as Hpi2.
  { rewrite pi_odd_primes by lia. now rewrite primes_between_nil by lia. }
  assert (Z.prime p ∧ pi p = n ∧ (n = 1 ∨ (2 <= n ∧ 3 <= p <= size s)))
    as (Hprime & Hpi & Hcase).
  { destruct (Z_le_gt_dec n 0) as [H0|H0].
    { rewrite Hneg in Ep by done. congruence. }
    destruct (Z.eq_dec n 1) as [->|H1].
    { injection Ep as <-. split; [apply Z.prime_2|]. split; [done|]. now left. }
    destruct (NthPrime_cases s n Hsv ltac:(lia))
      as [(p' & Ep' & Hp' & Hpr & Hpi)|[Ep' _]]; [|congruence].
    rewrite Ep in Ep'. injection Ep' as <-.
    split; [done|]. split; [done|]. right. lia. }
  pose proof (Z.prime_ge_2 p Hprime) as Hp2. split; [done|]. split; [|split].
  - destruct Hcase as [->|[Hn Hr]].
    + injection Ep as <-. done.
    + rewrite Prime_spec by (done || nia). now rewrite bool_decide_eq_true_2.
  - intros m q Hm Eq.
    destruct (Z_le_gt_dec m 0) as [H0|H0].
    { rewrite Hneg in Eq by done. injection Eq as <-. lia. }
    destruct (Z.eq_dec m 1) as [->|H1].
    { injection Eq as <-. destruct Hcase as [->|[Hn Hr]]; lia. }
    destruct (NthPrime_cases s m Hsv ltac:(lia))
      as [(q' & Eq' & Hq' & Hqr & Hqpi)|[Eq' _]].
    + rewrite Eq in Eq'. injection Eq' as <-. apply pi_lt_inv. lia.
    + rewrite Eq in Eq'. injection Eq' as ->. lia.
  - destruct (New_spec p ltac:(lia)) as (sp & Esp & Hsp & Hcp & _ & Hsvp).
    exists sp, (set_count sp (pi p)). split; [done|].
    rewrite <- Hpi, <- Hsp at 1. rewrite <- Hsp. now apply Count_spec.
Qed.

Lemma NthPrime_round_trip_witness :
  0 <= 30 ∧
  ∃ s, New 30 = Ok s ∧
    (NthPrime s 10 = Ok 29 → 29 ≠ 0 →
     2 <= 29 ∧ Prime s 29 = Ok true ∧
     (∀ m q, m < 10 → NthPrime s m = Ok q → q < 29) ∧
     ∃ sp sp', New 29 = Ok sp ∧ Count sp = Ok (10, sp')).
Proof. split; [lia|]. apply (NthPrime_round_trip 30 10 29). lia. Defined.

(** * Further properties: [Factor] *)












(** * Further properties: [FactorUnique] *)







(** * Further properties: the queries against each other *)








(** ** [DivisorCount] against [FactorUnique] *)





(** ** [SquareFree] against [Factor] *)




(** ** Zero and the negative numbers *)




(** ** Sieves of different sizes *)



(** * Further properties: [String] and [FactorString] *)

Lemma append_cons c (s t : string) : String c s +:+ t = String c (s +:+ t).
Proof. reflexivity. Qed.

Lemma append_nil_l (s : string) : EmptyString +:+ s = s.
Proof. reflexivity. Qed.

Lemma append_assoc (s t u : string) : (s +:+ t) +:+ u = s +:+ (t +:+ u).
Proof.
  induction s as [|c s IH]; [reflexivity|].
  rewrite !append_cons. now rewrite IH.
Qed.

Lemma concat_snoc (sep : string) (pre : list string) x :
  pre ≠ [] →
  String.concat sep (pre ++ [x]) = (String.concat sep pre +:+ sep) +:+ x.
Proof.
  induction pre as [|a pre IH]; intros Hne; [done|].
  destruct pre as [|b pre].
  - simpl. now rewrite append_assoc.
  - change (String.concat sep ((a :: b :: pre) ++ [x]))
      with (a +:+ sep +:+ String.concat sep ((b :: pre) ++ [x])).
    rewrite IH by done.
    change (String.concat sep (a :: b :: pre))
      with (a +:+ sep +:+ String.concat sep (b :: pre)).
    now rewrite !append_assoc.
Qed.

Lemma String_loop_spec (fuel : nat) :
  ∀ s i (pre : list string), sieved s → 3 <= i → Z.odd i = true →
    (0 < fuel)%nat → size s + 1 < i + Z.of_nat fuel →
    String_loop fuel s i (String.concat " " pre) (bool_decide (pre = []))
    = Ok (String.concat " " (pre ++ (Sprintf_d <$> primes_between i (size s)))).
Proof.
  induction fuel as [|fuel IH]; intros s i pre Hs Hi Ho Hf Hfuel; [lia|].
  simpl. destruct (Z.leb_spec i (size s)) as [His|His].
  2:{ rewrite primes_between_nil by lia. simpl. now rewrite app_nil_r. }
  rewrite sieved_bit by (done || lia). simpl.
  rewrite (primes_between_odd i (size s)) by done.
  destruct (decide (Z.prime i)) as [Hp|Hp].
  - rewrite bool_decide_eq_true_2 by done. simpl.
    assert ((if bool_decide (pre = []) then String.concat " " pre
             else String.concat " " pre +:+ " ") +:+ Sprintf_d i
            = String.concat " " (pre ++ [Sprintf_d i])) as ->.
    { destruct pre as [|a pre]; [done|].
      rewrite bool_decide_eq_false_2 by done. now rewrite concat_snoc. }
    pose proof (IH s (i + 2) (pre ++ [Sprintf_d i]) Hs ltac:(lia)
                  ltac:(now rewrite odd_add_2) ltac:(lia) ltac:(lia)) as IH'.
    rewrite bool_decide_eq_false_2 in IH' by (now destruct pre).
    rewrite IH'. now rewrite <- app_assoc.
  - rewrite bool_decide_eq_false_2 by done. simpl.
    apply IH; [done|lia|now rewrite odd_add_2|lia|lia].
Qed.

(** X15. [String] lists the primes: on a sieve built by [New size] with
    [size >= 0] it returns the decimal numerals of the primes up to [size],
    in ascending order, joined by single spaces; that is the empty string
    when [size < 2]. *)
Theorem String_lists_primes (sz : Z) :
  0 <= sz →
  ∃ s, New sz = Ok s ∧
    Sieve_String s = Ok (String.concat " " (Sprintf_d <$> primes_between 2 sz)) ∧
    (sz < 2 → Sieve_String s = Ok EmptyString).
Proof.
  intros Hsz. destruct (New_spec sz Hsz) as (s & E & Hs & _ & _ & Hsv).
  exists s. split; [done|]. subst sz.
  assert (Sieve_String s
          = Ok (String.concat " " (Sprintf_d <$> primes_between 2 (size s))))
    as EQ.
  { unfold Sieve_String. destruct (Z.leb_spec 2 (size s)) as [H2|H2].
    - rewrite (primes_between_cons 2) by done.
      rewrite bool_decide_eq_true_2 by apply Z.prime_2.
      change (2 + 1) with 3.
      apply (String_loop_spec (fuel_for (size s)) s 3 [Sprintf_d 2]);
        [done|lia|done|fuel_ok|fuel_ok].
    - rewrite (primes_between_nil 2) by lia.
      rewrite <- (primes_between_nil 3 (size s)) by lia.
      apply (String_loop_spec (fuel_for (size s)) s 3 []);
        [done|lia|done|fuel_ok|fuel_ok]. }
  split; [done|]. intros H2. rewrite EQ.
  now rewrite primes_between_nil by lia.
Qed.

Lemma String_lists_primes_witness :
  0 <= 30 ∧
  ∃ s, New 30 = Ok s ∧
    Sieve_String s = Ok (String.concat " " (Sprintf_d <$> primes_between 2 30)) ∧
    (30 < 2 → Sieve_String s = Ok EmptyString).
Proof. split; [lia|]. apply (String_lists_primes 30). lia. Defined.

Lemma FactorString_loop_spec (us : list Unique) :
  ∀ pre : list string,
    FactorString_loop us (String.concat " " pre)
      (if bool_decide (pre = []) then EmptyString else " ")
    = String.concat " " (pre ++ (render <$> us)).
Proof.
  induction us as [|u us IH]; intros pre; simpl.
  { now rewrite app_nil_r. }
  assert ((if Count_ u =? 1
           then String.concat " " pre
                +:+ ((if bool_decide (pre = []) then EmptyString else " ")
                     +:+ Sprintf_d (Factor_ u))
           else String.concat " " pre
                +:+ ((if bool_decide (pre = []) then EmptyString else " ")
                     +:+ Sprintf_d (Factor_ u) +:+ "^" +:+ Sprintf_d (Count_ u)))
          = String.concat " " (pre ++ [render u])) as ->.
  { destruct pre as [|a pre].
    - unfold render. simpl. now destruct (Count_ u =? 1).
    - rewrite bool_decide_eq_false_2 by done. rewrite concat_snoc by done.
      unfold render. destruct (Count_ u =? 1); now rewrite !append_assoc. }
  specialize (IH (pre ++ [render u])).
  rewrite bool_decide_eq_false_2 in IH by (now destruct pre).
  rewrite IH. now rewrite <- app_assoc.
Qed.

(** X16. [FactorString] writes the pairs of [FactorUnique]: on every sieve
    value and every [n], the result is the pairs rendered as [p] or [p^k]
    and joined by single spaces; beyond [size*size] it is the empty
    string. *)
Theorem FactorString_renders_FactorUnique (s : Sieve) (n : Z) :
  FactorString s n
  = (λ us, String.concat " " (render <$> us)) <$> FactorUnique s n ∧
  (size s * size s < n → FactorString s n = Ok EmptyString).
Proof.
  split.
  - unfold FactorString. destruct (FactorUnique s n) as [us|e]; simpl; [|done].
    f_equal. apply (FactorString_loop_spec us []).
  - intros H. unfold FactorString. now rewrite FactorUnique_beyond.
Qed.

Lemma FactorString_renders_FactorUnique_witness :
  FactorString (mkSieve 3 0 [0; 0]) 6
  = (λ us, String.concat " " (render <$> us))
      <$> FactorUnique (mkSieve 3 0 [0; 0]) 6 ∧
  (size (mkSieve 3 0 [0; 0]) * size (mkSieve 3 0 [0; 0]) < 6 →
   FactorString (mkSieve 3 0 [0; 0]) 6 = Ok EmptyString).
Proof. apply (FactorString_renders_FactorUnique (mkSieve 3 0 [0; 0]) 6). Defined.

(** * Further properties: the sum of the first primes *)

Lemma to_uint_add_l a b : to_uint (to_uint a + b) = to_uint (a + b).
Proof. unfold to_uint. apply Zplus_mod_idemp_l. Qed.

Lemma to_uint_add_r a b : to_uint (a + to_uint b) = to_uint (a + b).
Proof. unfold to_uint. apply Zplus_mod_idemp_r. Qed.

Lemma to_uint_idemp a : to_uint (to_uint a) = to_uint a.
Proof. unfold to_uint. apply Zmod_mod. Qed.

Lemma sum_loop_spec (fuel : nat) :
  ∀ s i n acc, sieved s → 3 <= i → Z.odd i = true →
    (0 < fuel)%nat → size s + 1 < i + Z.of_nat fuel →
    to_uint acc = acc →
    sum_loop fuel s i n acc
    = Ok (n - Z.of_nat (length (take (Z.to_nat n) (primes_between i (size s)))),
          to_uint (acc + sum_of (take (Z.to_nat n) (primes_between i (size s))))).
Proof.
  induction fuel as [|fuel IH]; intros s i n acc Hs Hi Ho Hf Hfuel Hacc; [lia|].
  simpl. destruct (Z.leb_spec i (size s)) as [His|His]; simpl.
  2:{ rewrite primes_between_nil by lia. rewrite take_nil. simpl.
      now rewrite Z.sub_0_r, Z.add_0_r, Hacc. }
  destruct (Z.ltb_spec 0 n) as [Hn|Hn].
  2:{ replace (Z.to_nat n) with 0%nat by lia. simpl.
      now rewrite Z.sub_0_r, Z.add_0_r, Hacc. }
  rewrite sieved_bit by (done || lia). simpl.
  rewrite (primes_between_odd i (size s)) by done.
  destruct (decide (Z.prime i)) as [Hp|Hp].
  - rewrite bool_decide_eq_true_2 by done. simpl.
    rewrite IH by (done || lia || now rewrite odd_add_2 || apply to_uint_idemp).
    replace (Z.to_nat n) with (S (Z.to_nat (n - 1))) by lia.
    cbn [take length sum_of foldr]. fold (sum_of (take (Z.to_nat (n - 1))
                                       (primes_between (i + 2) (size s)))).
    f_equal. f_equal; [lia|].
    rewrite to_uint_add_l, (Z.add_comm acc), <- Z.add_assoc, Z.add_comm.
    rewrite to_uint_add_r. f_equal. lia.
  - rewrite bool_decide_eq_false_2 by done. simpl.
    apply IH; [done|lia|now rewrite odd_add_2|lia|lia|done].
Qed.

(** X17. The helper [sum] of the tests: on a sieve built by [New size]
    with [size >= 0], for [n >= 2] it returns the sum of the first [n]
    primes reduced modulo [2^64] when the sieve holds [n] primes, and 0
    otherwise; for [n <= 0] it returns 0. For [n = 1] it skips the prime 2
    and returns 3, or 0 when [size < 3]. *)
Theorem sum_of_first_primes (sz n : Z) :
  0 <= sz →
  ∃ s, New sz = Ok s ∧
    (2 <= n →
     Sieve_sum s n
     = Ok (if n <=? pi sz
           then to_uint (sum_of (take (Z.to_nat n) (primes_between 2 sz)))
           else 0)) ∧
    (n = 1 → Sieve_sum s n = Ok (if 3 <=? sz then 3 else 0)) ∧
    (n <= 0 → Sieve_sum s n = Ok 0).
Proof.
  intros Hsz. destruct (New_spec sz Hsz) as (s & E & Hs & _ & _ & Hsv).
  exists s. split; [done|]. subst sz.
  assert (∀ n1 acc, to_uint acc = acc →
            sum_loop (fuel_for (size s)) s 3 n1 acc
            = Ok (n1 - Z.of_nat (length (take (Z.to_nat n1)
                                           (primes_between 3 (size s)))),
                  to_uint (acc + sum_of (take (Z.to_nat n1)
                                           (primes_between 3 (size s))))))
    as Hloop.
  { intros n1 acc Hacc.
    apply sum_loop_spec; [done|lia|done|fuel_ok|fuel_ok|done]. }
  split; [|split].
  - intros Hn. unfold Sieve_sum. destruct (Z.leb_spec 2 n); [|lia].
    rewrite Hloop by done. simpl.
    rewrite length_take.
    destruct (Z_lt_le_dec (size s) 2) as [H2|H2].
    + rewrite pi_small by done. rewrite primes_between_nil by lia. simpl.
      destruct (Z.leb_spec n 0); [lia|].
      destruct (Z.ltb_spec 0 (n - 1 - Z.of_nat (Z.to_nat (n - 1) `min` 0)));
        [done|lia].
    + rewrite pi_odd_primes by done.
      rewrite (primes_between_cons 2 (size s)) by done.
      rewrite bool_decide_eq_true_2 by apply Z.prime_2.
      change (2 + 1) with 3.
      destruct (Z.leb_spec n (1 + Z.of_nat (length (primes_between 3 (size s)))))
        as [Hle|Hgt].
      * destruct (Z.ltb_spec 0 (n - 1 - Z.of_nat (Z.to_nat (n - 1) `min`
                                 length (primes_between 3 (size s)))));
          [lia|].
        f_equal. replace (Z.to_nat n) with (S (Z.to_nat (n - 1))) by lia.
        cbn [app take sum_of foldr].
        fold (sum_of (take (Z.to_nat (n - 1)) (primes_between 3 (size s)))).
        rewrite to_uint_add_l. done.
      * destruct (Z.ltb_spec 0 (n - 1 - Z.of_nat (Z.to_nat (n - 1) `min`
                                 length (primes_between 3 (size s)))));
          [done|lia].
  - intros ->. unfold Sieve_sum. simpl. rewrite Hloop by done.
    destruct (Z.leb_spec 3 (size s)) as [H3|H3].
    + rewrite (primes_between_odd 3 (size s)) by done.
      rewrite bool_decide_eq_true_2 by apply Z.prime_3. done.
    + rewrite primes_between_nil by lia. done.
  - intros Hn. unfold Sieve_sum. destruct (Z.leb_spec 2 n); [lia|].
    rewrite Hloop by done. replace (Z.to_nat n) with 0%nat by lia. simpl.
    now destruct (0 <? n - Z.of_nat 0).
Qed.

Lemma sum_of_first_primes_witness :
  0 <= 30 ∧
  ∃ s, New 30 = Ok s ∧
    (2 <= 10 →
     Sieve_sum s 10
     = Ok (if 10 <=? pi 30
           then to_uint (sum_of (take (Z.to_nat 10) (primes_between 2 30)))
           else 0)) ∧
    (10 = 1 → Sieve_sum s 10 = Ok (if 3 <=? 30 then 3 else 0)) ∧
    (10 <= 0 → Sieve_sum s 10 = Ok 0).
Proof. split; [lia|]. apply (sum_of_first_primes 30 10). lia. Defined.

(** * Further properties: the table that [New] fills *)

Lemma marked_half t i j : 0 <= i → 0 <= j → i / 2 = j / 2 → marked t i = marked t j.
Proof.
  intros Hi Hj E. unfold marked.
  replace (i / 16) with (i / 2 / 8) by (rewrite Z.div_div; [done|lia|lia]).
  replace (j / 16) with (j / 2 / 8) by (rewrite Z.div_div; [done|lia|lia]).
  now rewrite E.
Qed.

Lemma odd_strike i t : Z.odd i = true → Z.odd (3 * i + t * (i + i)) = true.
Proof.
  intros Ho. rewrite Z.odd_add, !Z.odd_mul, Z.odd_add, Ho.
  change (Z.odd 3) with true. simpl. now rewrite andb_false_r.
Qed.

Lemma New_strike_only_composites s i s' :
  3 <= i → Z.odd i = true → covers s → only_composites s →
  New_strike (fuel_for (size s)) s i (3 * i) = Ok s' →
  covers s' ∧ size s' = size s ∧ only_composites s'.
Proof.
  intros Hi Ho Hc Hinv E.
  destruct (New_strike_spec (fuel_for (size s)) s i (3 * i))
    as (s1 & E1 & Hsz & _ & Hlen & Hmk); [lia|lia|done|fuel_ok|fuel_ok|].
  rewrite E in E1. injection E1 as <-.
  split; [unfold covers; now rewrite Hsz, Hlen|]. split; [done|].
  intros m Hm Hmark. apply (Hmk m Hm) in Hmark as [Hold|(t & Ht & Hle & Hhalf)].
  - destruct (Hinv m Hm Hold) as (c & Hc9 & Hrest). exists c. rewrite Hsz.
    split; [done|done].
  - exists (3 * i + t * (i + i)). rewrite Hsz. split; [nia|].
    split; [now apply odd_strike|]. split; [|done].
    apply (composite_not_prime i); [nia|]. exists (3 + 2 * t). ring.
Qed.

Lemma New_loop_only_composites (fuel : nat) :
  ∀ s i s', 3 <= i → Z.odd i = true → covers s → only_composites s →
    New_loop fuel s i = Ok s' →
    size s' = size s ∧ only_composites s'.
Proof.
  induction fuel as [|fuel IH]; intros s i s' Hi Ho Hc Hinv E; [done|].
  simpl in E. destruct (i * i <=? size s); [|injection E as <-; done].
  destruct (bit s i) as [b|e]; simpl in E; [|done].
  destruct (b =? 0).
  - destruct (New_strike (fuel_for (size s)) s i (3 * i)) as [s1|e] eqn:E1;
      simpl in E; [|done].
    destruct (New_strike_only_composites s i s1 Hi Ho Hc Hinv E1)
      as (Hc1 & Hsz1 & Hinv1).
    destruct (IH s1 (i + 2) s') as (Hsz & Hinv');
      [lia|now rewrite odd_add_2|done|done|done|].
    split; [congruence|done].
  - simpl in E. apply (IH s (i + 2) s'); [lia|now rewrite odd_add_2|done|done|done].
Qed.

(** X18. The whole table after [New]: on a sieve built by [New size] with
    [size >= 0], the bit read for any [i >= 0] whose word exists is 1
    exactly when the odd number of the pair [{i, i+1}] (for an even [i]) or
    [{i-1, i}] (for an odd [i]) is a composite of [[3, size]]; in particular
    the bits of 0 and 1, and those of the numbers beyond [size], are
    0. *)
Theorem New_table (sz i : Z) :
  0 <= sz → 0 <= i →
  ∃ s, New sz = Ok s ∧
    (Z.shiftr i 4 < Z.of_nat (length (table s)) →
     bit s i = Ok (Z.b2z (bool_decide (3 <= 2 * (i / 2) + 1 <= sz ∧
                                        ¬ Z.prime (2 * (i / 2) + 1))))).
Proof.
  intros Hsz Hi. pose proof (New_spec sz Hsz) as (s & E & Hs & _ & Hlen & Hsv).
  exists s. split; [done|]. intros Hin. rewrite shiftr_4 in Hin.
  assert (only_composites s) as Hinv.
  { revert E. unfold New, make. rewrite table_length by done.
    assert (0 <= (sz + 7) / 8) by (apply Z.div_pos; lia).
    destruct (Z.ltb_spec (1 + (sz + 7) / 8) 0); [lia|]. simpl. intros E.
    apply New_loop_only_composites in E as [_ H']; [done|lia|done| |].
    - split; [done|]. simpl. rewrite length_replicate, Z2Nat.id by lia.
      pose proof (Z.div_mod sz 16 ltac:(lia)).
      pose proof (Z.mod_pos_bound sz 16 ltac:(lia)).
      pose proof (Z.div_mod (sz + 7) 8 ltac:(lia)).
      pose proof (Z.mod_pos_bound (sz + 7) 8 ltac:(lia)). lia.
    - intros m Hm. simpl. now rewrite marked_replicate. }
  assert (0 <= i / 16) by (apply Z.div_pos; lia).
  rewrite bit_marked by lia. f_equal. f_equal.
  pose proof (Z.div_mod i 2 ltac:(lia)) as Hdm.
  pose proof (Z.mod_pos_bound i 2 ltac:(lia)) as Hmb.
  assert (0 <= i / 2) by (apply Z.div_pos; lia).
  set (c := 2 * (i / 2) + 1).
  assert (c / 2 = i / 2) as Hhalf.
  { unfold c. rewrite Z.mul_comm, Z.div_add_l by lia.
    change (1 / 2) with 0. lia. }
  assert (Z.odd c = true) as Hoc.
  { unfold c. rewrite Z.add_comm, Z.odd_add_mul_2. done. }
  rewrite (marked_half _ i c) by (done || unfold c; lia).
  destruct (decide (3 <= c <= sz)) as [Hr|Hr].
  - destruct Hsv as [_ Hsv]. rewrite Hsv by (done || lia).
    destruct (decide (Z.prime c)) as [Hp|Hp].
    + rewrite bool_decide_eq_true_2 by done.
      rewrite bool_decide_eq_false_2 by tauto. done.
    + rewrite bool_decide_eq_false_2 by done.
      rewrite bool_decide_eq_true_2 by tauto. done.
  - rewrite bool_decide_eq_false_2 by tauto.
    destruct (marked (table s) c) eqn:Hmk; [|done]. exfalso.
    destruct (Hinv c ltac:(unfold c; lia) Hmk) as (c' & Hc' & Hoc' & _ & Hh).
    apply odd_half_inj in Hh; [|done|done]. lia.
Qed.

Lemma New_table_witness :
  0 <= 30 ∧ 0 <= 25 ∧
  ∃ s, New 30 = Ok s ∧
    (Z.shiftr 25 4 < Z.of_nat (length (table s)) →
     bit s 25 = Ok (Z.b2z (bool_decide (3 <= 2 * (25 / 2) + 1 <= 30 ∧
                                         ¬ Z.prime (2 * (25 / 2) + 1))))).
Proof. split; [lia|]. split; [lia|]. apply (New_table 30 25); lia. Defined.
